(** * IBFT header extra data: the consensus-metadata codec of polygon-edge

    A shallow embedding of [consensus/ibft/extra.go] together with the
    properties its specification states about it.

    The file is organised as the Go code is: the wire codec the package
    builds on (module [fastrlp]), the helpers of package [types] it calls
    (module [types]) and then the package [ibft] itself, whose definitions
    keep the names they have in [extra.go]. *)

From Stdlib Require Import List NArith ZArith Arith Lia Bool.
From Stdlib Require Import Init.Byte Strings.Byte.
Import ListNotations.

Set Warnings "-register-all".
Local Open Scope N_scope.

(** ** Bytes *)

Definition bytes : Type := list byte.

(** [b2n] is Go's conversion [uint64(b)] of a byte, [n2b] the conversion
    [byte(n)], which keeps the low eight bits. *)
Definition b2n (b : byte) : N := Byte.to_N b.

Definition n2b (n : N) : byte :=
  match Byte.of_N (n mod 256) with
  | Some b => b
  | None => x00
  end.

(** [len b] is Go's [len(b)], read as an unsigned number. *)
Definition len {A : Type} (l : list A) : N := N.of_nat (length l).

(** Arithmetic of Go's [uint64]. *)
Definition u64_modulus : N := 2 ^ 64.
Definition u64 (n : N) : N := n mod u64_modulus.
Definition u64_sub (a b : N) : N := (a + u64_modulus - b mod u64_modulus) mod u64_modulus.

(** Go's [int] on a 64-bit platform bounds the length of every slice. *)
Definition max_int : N := 2 ^ 63 - 1.

(** ** The wire codec: package [fastrlp] *)

(** The wire codec ("Wire Codec Adapter", the Go package
    [github.com/umbracle/fastrlp]) is an external collaborator whose source
    is not part of the repository.  It is modelled as the RLP codec that
    package implements: values are byte strings, lists, and the two null
    markers an arena can create; [MarshalTo] writes the RLP layout and
    [Parse] reads it back. *)

Module fastrlp.

(** Modelled from the spec: the types of values of the wire codec (lists,
    byte strings, null markers). *)
Inductive Type_ : Set :=
| TypeArray
| TypeBytes
| TypeNull
| TypeArrayNull.

(** Modelled from the spec: a value of the wire codec.
    [VArray a l] is an array with elements [a] whose encoded
    payload is [l] bytes long (the field [l] that [Set] maintains),
    [VBytes b] a byte string, [VNull] the null byte string ([0x80]) and
    [VArrayNull] the null array ([0xC0]). *)
Inductive Value : Type :=
| VArray (a : list Value) (l : N)
| VBytes (b : bytes)
| VNull
| VArrayNull.

Definition Type_of (v : Value) : Type_ :=
  match v with
  | VArray _ _ => TypeArray
  | VBytes _ => TypeBytes
  | VNull => TypeNull
  | VArrayNull => TypeArrayNull
  end.

(** The causes of a failure of [Parse].  [PFuel] is not a Go error: it
    marks that a recursion bound of the model was reached, which [Parse]
    never does (see [Parse_fuel_enough]). *)
Inductive parse_error : Set :=
| PEmptyString
| PBadSize
| PLengthNotEnough
| PFuel.

Inductive presult (A : Type) : Type :=
| POk (a : A)
| PErr (e : parse_error).
Arguments POk {A} a.
Arguments PErr {A} e.

(** *** Building values (the arena) *)

Definition NewArray : Value := VArray [] 0.
Definition NewBytes (b : bytes) : Value := VBytes b.
Definition NewNull : Value := VNull.
Definition NewNullArray : Value := VArrayNull.

(** [intsize val]: the number of bytes needed to write [val]. *)
Definition intsize (val : N) : N :=
  if val <? 2 ^ 8 then 1
  else if val <? 2 ^ 16 then 2
  else if val <? 2 ^ 24 then 3
  else if val <? 2 ^ 32 then 4
  else if val <? 2 ^ 40 then 5
  else if val <? 2 ^ 48 then 6
  else if val <? 2 ^ 56 then 7
  else 8.

(** Modelled from the spec: [fullLen v], the number of bytes [MarshalTo]
    writes for [v]. *)
Definition fullLen (v : Value) : N :=
  match v with
  | VNull | VArrayNull => 1
  | VBytes b =>
      let size := len b in
      match b with
      | [b0] => if b2n b0 <=? 127 then 1 else 1 + size
      | _ => if size <? 56 then 1 + size else 1 + intsize size + size
      end
  | VArray _ size =>
      if size <? 56 then 1 + size else 1 + intsize size + size
  end.

(** Modelled from the spec: [Value.Set] ("append" of the wire codec)
    appends [vv] to the array [v] and adds its length to the payload length
    of [v]; any other [v] is left as it is. *)
Definition Value_Set (v vv : Value) : Value :=
  match v with
  | VArray a l => VArray (a ++ [vv]) (l + fullLen vv)
  | _ => v
  end.

(** *** Marshalling *)

(** [binary.BigEndian.PutUint64]. *)
Definition PutUint64 (v : N) : bytes :=
  map (fun s => n2b (N.shiftr v s)) [56; 48; 40; 32; 24; 16; 8; 0].

(** [binary.BigEndian.Uint64]. *)
Definition Uint64 (b : bytes) : N :=
  fold_left (fun acc x => acc * 256 + b2n x) b 0.

(** [marshalLongSize]: the prefix byte [base + intsize size] followed by the
    big-endian bytes of [size], most significant first, without leading
    zeros. *)
Definition marshalLongSize (base size : N) (dst : bytes) : bytes :=
  let intSize := intsize size in
  (dst ++ [n2b (base + intSize)])
    ++ skipn (8 - N.to_nat intSize) (PutUint64 (u64 size)).

(** Modelled from the spec: [Value.MarshalTo], the encoding of [v]
    appended to [dst].  A byte string is a single byte below [0x80], or
    [0x80 + length] and the bytes, or [0xB7 + k], the length in [k] bytes
    and the bytes; an array is [0xC0 + length] or [0xF7 + k] and the length
    in [k] bytes, followed by its elements; the null markers are [0x80] and
    [0xC0]. *)
Fixpoint MarshalTo (v : Value) (dst : bytes) : bytes :=
  match v with
  | VBytes b =>
      match b with
      | [b0] =>
          if b2n b0 <=? 127 then dst ++ b
          else (dst ++ [n2b (128 + len b)]) ++ b
      | _ =>
          if len b <? 56 then (dst ++ [n2b (128 + len b)]) ++ b
          else marshalLongSize 183 (len b) dst ++ b
      end
  | VArray a l =>
      let dst :=
        if l <? 56 then dst ++ [n2b (192 + l)]
        else marshalLongSize 247 l dst in
      fold_left (fun dst vv => MarshalTo vv dst) a dst
  | VNull => dst ++ [x80]
  | VArrayNull => dst ++ [xc0]
  end.

(** *** Parsing *)

(** [readUint]: the big-endian number written in at most eight bytes. *)
Definition readUint (b : bytes) : N :=
  Uint64 (repeat x00 (8 - length b) ++ b).

Definition parseBytes (b : bytes) (size : N) : presult (Value * bytes) :=
  if len b <? size then PErr PLengthNotEnough
  else POk (VBytes (firstn (N.to_nat size) b), skipn (N.to_nat size) b).

(** The loop of [parseList]: elements are parsed until the declared [size]
    is used up.  [k] bounds the number of iterations. *)
Fixpoint parseElems (pv : bytes -> presult (Value * bytes))
    (k : nat) (b : bytes) (size : N) (a : list Value)
    : presult (list Value * bytes) :=
  if size =? 0 then POk (a, b)
  else
    match k with
    | O => PErr PFuel
    | S k' =>
        match pv b with
        | PErr e => PErr e
        | POk (vv, b') =>
            parseElems pv k' b' (u64_sub size (len b - len b')) (a ++ [vv])
        end
    end.

Definition parseList (pv : bytes -> presult (Value * bytes))
    (b : bytes) (size : N) : presult (Value * bytes) :=
  if len b <? size then PErr PLengthNotEnough
  else
    match parseElems pv (S (length b)) b size [] with
    | PErr e => PErr e
    | POk (a, tail) => POk (VArray a size, tail)
    end.

(** Modelled from the spec: [parseValue] reads one value from the front
    of [b] and returns the rest of [b] with it.  [fuel] bounds the nesting
    depth. *)
Fixpoint parseValue (fuel : nat) (b : bytes) : presult (Value * bytes) :=
  match fuel with
  | O => PErr PFuel
  | S fuel' =>
      match b with
      | [] => PErr PEmptyString
      | cur :: rest =>
          if b2n cur <? 128 then POk (VBytes [cur], rest)
          else if b2n cur <? 184 then parseBytes rest (b2n cur - 128)
          else if b2n cur <? 192 then
            let intSize := b2n cur - 183 in
            if len b <? intSize + 1 then PErr PBadSize
            else
              let size := readUint (firstn (N.to_nat intSize) rest) in
              if size <? 56 then PErr PBadSize
              else parseBytes (skipn (N.to_nat intSize) rest) size
          else if b2n cur <? 248 then
            parseList (parseValue fuel') rest (b2n cur - 192)
          else
            let intSize := b2n cur - 247 in
            if len b <? intSize + 1 then PErr PBadSize
            else
              let size := readUint (firstn (N.to_nat intSize) rest) in
              if size <? 56 then PErr PBadSize
              else parseList (parseValue fuel') (skipn (N.to_nat intSize) rest) size
      end
  end.

(** Modelled from the spec: [Parser.Parse], the first value of [b]; what
    follows it is ignored. *)
Definition Parse (b : bytes) : presult Value :=
  match parseValue (S (length b)) b with
  | POk (v, _) => POk v
  | PErr e => PErr e
  end.

(** *** Typed getters *)

(** The errors of the codec: of [Parse] ("cannot parse RLP"), and of the
    typed getters on a value of another type or length. *)
Inductive error : Set :=
| ErrCannotParse (cause : parse_error)
| ErrNoArray
| ErrNoBytes
| ErrBadLength (expected found : N).

Inductive result (E A : Type) : Type :=
| Ok (a : A)
| Err (e : E).
Arguments Ok {E A} a.
Arguments Err {E A} e.

(** Modelled from the spec: [Value.GetElems], the elements of an array. *)
Definition GetElems (v : Value) : result error (list Value) :=
  match v with
  | VArray a _ => Ok a
  | _ => Err ErrNoArray
  end.

(** Modelled from the spec: [Value.GetBytes(dst, bits...)], the content of
    a byte string.  The content is appended to [dst[:0]];
    an optional first element of [bits] is the length the content must
    have. *)
Definition GetBytes (v : Value) (dst : bytes) (bits : list N)
    : result error bytes :=
  match v with
  | VBytes b =>
      match bits with
      | want :: _ =>
          if negb (len b =? want) then Err (ErrBadLength want (len b))
          else Ok (firstn 0 dst ++ b)
      | [] => Ok (firstn 0 dst ++ b)
      end
  | _ => Err ErrNoBytes
  end.

(** Modelled from the spec: [Value.GetAddr(buf)], the content of a byte
    string of exactly 20 bytes: [GetBytes(buf, 20)]; the result is the
    content of [buf] afterwards. *)
Definition GetAddr (v : Value) (buf : bytes) : result error bytes :=
  GetBytes v buf [20].

End fastrlp.

Export fastrlp.

(** ** Package [types] *)

Module types.

(** Modelled from the spec: [types.Address], of package [types] of the
    repository, whose source is not at hand.  An address is "exactly 20
    bytes" ([Address] is [[20]byte]); it is kept as a byte string, and
    [wf_Address] states its length. *)
Definition AddressLength : N := 20.
Definition Address : Type := bytes.
Definition wf_Address (a : Address) : Prop := len a = AddressLength.

(** [Address.Bytes]. *)
Definition Bytes (a : Address) : bytes := a.

(** The zero address, as [make([]types.Address, n)] fills a slice. *)
Definition ZeroAddress : Address := repeat x00 20.

(** Modelled from the spec: the block header owns "a single mutable
    byte-sequence field" that this package reads and replaces; the other
    fields of [types.Header] are not touched by [extra.go]. *)
Record Header : Type := mkHeader { ExtraData : bytes }.

(** Modelled from the spec: [types.MarshalRLPTo] lets the record build its
    value in an arena and appends the encoding of that value to [dst]. *)
Definition MarshalRLPTo (obj : Value) (dst : bytes) : bytes :=
  MarshalTo obj dst.

(** Modelled from the spec: [types.UnmarshalRlp] parses [input] and hands
    the parsed value to the record's decoder. *)
Definition UnmarshalRlp {E A : Type} (wrap : fastrlp.error -> E)
    (obj : Value -> result E A) (input : bytes) : result E A :=
  match Parse input with
  | PErr e => Err (wrap (ErrCannotParse e))
  | POk v => obj v
  end.

End types.

Export types.

(** ** Package [ibft]: [extra.go] *)

(** [IstanbulExtraVanity]: the number of extra-data bytes reserved for the
    proposer vanity. *)
Definition IstanbulExtraVanity : N := 32.

(** [IstanbulExtraSeal]: the number of bytes of a proposer seal. *)
Definition IstanbulExtraSeal : N := 65.

Definition zeroBytes : bytes := repeat x00 32.

(** [IstanbulExtra]: the structure of the extra field. *)
Record IstanbulExtra : Type := mkIstanbulExtra {
  Validators : list Address;
  Seal : bytes;
  CommittedSeal : list bytes
}.

(** The errors [extra.go] returns: those it formats itself, and those of
    the wire codec it returns as they are. *)
Inductive ibft_error : Set :=
| ErrWrongExtraSize (expected actual : N)
| ErrWire (e : fastrlp.error)
| ErrNotEnoughElements (found : N)
| ErrValidatorsType (found : Type_)
| ErrDecodeSeal (cause : fastrlp.error)
| ErrCommittedSealType (found : Type_).

(** [MarshalRLPWith]: the value of the record.  The two loops are folds
    over the arrays they fill; the second one carries both [vv] and
    [committed], as its body updates either. *)
Definition MarshalRLPWith (i : IstanbulExtra) : Value :=
  let vv := NewArray in
  (* Validators *)
  let vals :=
    fold_left (fun vals a => Value_Set vals (NewBytes (Bytes a)))
      (Validators i) NewArray in
  let vv := Value_Set vv vals in
  (* Seal *)
  let vv :=
    if len (Seal i) =? 0 then Value_Set vv NewNull
    else Value_Set vv (NewBytes (Seal i)) in
  (* CommittedSeal *)
  let vv :=
    if len (CommittedSeal i) =? 0 then Value_Set vv NewNullArray
    else
      let '(vv, committed) :=
        fold_left
          (fun '(vv, committed) a =>
             if len a =? 0 then (Value_Set vv NewNull, committed)
             else (vv, Value_Set committed (NewBytes a)))
          (CommittedSeal i) (vv, NewArray) in
      Value_Set vv committed in
  vv.

Definition MarshalRLPTo (i : IstanbulExtra) (dst : bytes) : bytes :=
  types.MarshalRLPTo (MarshalRLPWith i) dst.

(** The loop over the validators of [UnmarshalRLPFrom]: each value is read
    into its (zero) address; the first failure is returned. *)
Fixpoint getAddrs (vals : list Value) : result ibft_error (list Address) :=
  match vals with
  | [] => Ok []
  | val :: vals' =>
      match GetAddr val ZeroAddress with
      | Err err => Err (ErrWire err)
      | Ok a =>
          match getAddrs vals' with
          | Err err => Err err
          | Ok l => Ok (a :: l)
          end
      end
  end.

(** The loop over the committed seals of [UnmarshalRLPFrom]. *)
Fixpoint getSeals (vals : list Value) : result ibft_error (list bytes) :=
  match vals with
  | [] => Ok []
  | val :: vals' =>
      match GetBytes val [] [] with
      | Err err => Err (ErrWire err)
      | Ok s =>
          match getSeals vals' with
          | Err err => Err err
          | Ok l => Ok (s :: l)
          end
      end
  end.

Definition UnmarshalRLPFrom (v : Value) : result ibft_error IstanbulExtra :=
  match GetElems v with
  | Err err => Err (ErrWire err)
  | Ok elems =>
      match elems with
      | [e0; e1; e2] =>
          (* Validators *)
          match GetElems e0 with
          | Err _ => Err (ErrValidatorsType (Type_of e0))
          | Ok vals =>
              match getAddrs vals with
              | Err err => Err err
              | Ok validators =>
                  (* Seal *)
                  match GetBytes e1 [] [] with
                  | Err err => Err (ErrDecodeSeal err)
                  | Ok seal =>
                      (* Committed *)
                      match GetElems e2 with
                      | Err _ => Err (ErrCommittedSealType (Type_of e0))
                      | Ok vals =>
                          match getSeals vals with
                          | Err err => Err err
                          | Ok committed =>
                              Ok (mkIstanbulExtra validators seal committed)
                          end
                      end
                  end
              end
          end
      | _ => Err (ErrNotEnoughElements (len elems))
      end
  end.

Definition UnmarshalRLP (input : bytes) : result ibft_error IstanbulExtra :=
  types.UnmarshalRlp ErrWire UnmarshalRLPFrom input.

(** The functions on headers.  A function that writes the header returns
    the header it leaves behind together with its error ([None] is Go's
    [nil]); one that only reads returns a [result]. *)

Definition putIbftExtra (h : Header) (istanbulExtra : IstanbulExtra)
    : Header * option ibft_error :=
  let extra := ExtraData h in
  let extra :=
    if len extra <? IstanbulExtraVanity then
      extra ++ firstn (N.to_nat (IstanbulExtraVanity - len extra)) zeroBytes
    else firstn (N.to_nat IstanbulExtraVanity) extra in
  (mkHeader (MarshalRLPTo istanbulExtra extra), None).

Definition initIbftExtra (h : Header) (validators : list Address)
    : Header * option ibft_error :=
  putIbftExtra h (mkIstanbulExtra validators [] []).

Definition getIbftExtra (h : Header) : result ibft_error IstanbulExtra :=
  if len (ExtraData h) <? IstanbulExtraVanity then
    Err (ErrWrongExtraSize IstanbulExtraVanity (len (ExtraData h)))
  else
    let data := skipn (N.to_nat IstanbulExtraVanity) (ExtraData h) in
    match UnmarshalRLP data with
    | Err err => Err err
    | Ok extra => Ok extra
    end.

Definition unpackValidatorsFromIbftExtra (h : Header)
    : result ibft_error (list Address) :=
  match getIbftExtra h with
  | Err err => Err err
  | Ok extra => Ok (Validators extra)
  end.

Definition unpackSealFromIbftExtra (h : Header) : result ibft_error bytes :=
  match getIbftExtra h with
  | Err err => Err err
  | Ok extra => Ok (Seal extra)
  end.

Definition unpackCommittedSealFromIbftExtra (h : Header)
    : result ibft_error (list bytes) :=
  match getIbftExtra h with
  | Err err => Err err
  | Ok extra => Ok (CommittedSeal extra)
  end.

Definition packFieldIntoIbftExtra (h : Header)
    (updateFn : IstanbulExtra -> IstanbulExtra) : Header * option ibft_error :=
  match getIbftExtra h with
  | Err err => (h, Some err)
  | Ok extra => putIbftExtra h (updateFn extra)
  end.

Definition packSealIntoIbftExtra (h : Header) (seal : bytes)
    : Header * option ibft_error :=
  packFieldIntoIbftExtra h
    (fun extra => mkIstanbulExtra (Validators extra) seal (CommittedSeal extra)).

Definition packCommittedSealIntoIbftExtra (h : Header) (seals : list bytes)
    : Header * option ibft_error :=
  packFieldIntoIbftExtra h
    (fun extra => mkIstanbulExtra (Validators extra) (Seal extra) seals).

Definition filterIbftExtraForHash (h : Header) : Header * option ibft_error :=
  match getIbftExtra h with
  | Err err => (h, Some err)
  | Ok extra => initIbftExtra h (Validators extra)
  end.


(** ** Notions used to state the properties *)

Module fastrlp_aux.

(** The big-endian bytes of [size], as [marshalLongSize] writes them. *)
Definition sizeBytes (size : N) : bytes :=
  skipn (8 - N.to_nat (intsize size)) (PutUint64 (u64 size)).

(** The [k] low base-256 digits of [n], most significant first. *)
Definition digits (k : nat) (n : N) : bytes :=
  map (fun j => n2b (n / 256 ^ N.of_nat j)) (rev (seq 0 k)).

(** The encoding of a value, and of a sequence of values one after the
    other. *)
Definition enc (v : Value) : bytes := MarshalTo v [].
Definition encs (a : list Value) : bytes := flat_map enc a.

(** The payload length of an array with elements [a], as repeated [Set]
    computes it. *)
Definition sumLen (a : list Value) : N :=
  fold_right (fun v acc => fullLen v + acc) 0 a.

(** A value as an arena builds it and a Go program can hold it: the length
    field of every array is the sum of the lengths of its elements, and
    every length is a [uint64]. *)
Fixpoint wfValue (v : Value) : bool :=
  match v with
  | VArray a l => forallb wfValue a && (l =? sumLen a) && (l <? u64_modulus)
  | VBytes b => len b <? u64_modulus
  | VNull | VArrayNull => true
  end.

(** What a value reads back as: the parser knows no null markers, [0x80]
    is the empty byte string and [0xC0] the empty array. *)
Fixpoint norm (v : Value) : Value :=
  match v with
  | VArray a l => VArray (map norm a) l
  | VBytes b => VBytes b
  | VNull => VBytes []
  | VArrayNull => VArray [] 0
  end.

(** The nesting depth of a value. *)
Fixpoint depth (v : Value) : nat :=
  match v with
  | VArray a _ => S (fold_right (fun c d => Nat.max (depth c) d) O a)
  | _ => O
  end.

(** The length field of every array is the sum of the lengths of its
    elements. *)
Fixpoint consistent (v : Value) : bool :=
  match v with
  | VArray a l => forallb consistent a && (l =? sumLen a)
  | _ => true
  end.

(** A parser that uses up at least one byte for every value it returns. *)
Definition consumes (pv : bytes -> presult (Value * bytes)) : Prop :=
  forall b v t, pv b = POk (v, t) -> (length t < length b)%nat.

End fastrlp_aux.

Export fastrlp_aux.

Module ibft_aux.

(** A byte string a Go program can hold: its length is an [int]. *)
Definition go_slice (b : bytes) : Prop := len b <= max_int.

(** The vanity [putIbftExtra] writes in front of the record: the field it
    finds, padded with zeros or cut to [IstanbulExtraVanity] bytes. *)
Definition normalize_prefix (extra : bytes) : bytes :=
  if len extra <? IstanbulExtraVanity then
    extra ++ firstn (N.to_nat (IstanbulExtraVanity - len extra)) zeroBytes
  else firstn (N.to_nat IstanbulExtraVanity) extra.

(** The first [IstanbulExtraVanity] bytes of a field. *)
Definition vanity (extra : bytes) : bytes :=
  firstn (N.to_nat IstanbulExtraVanity) extra.

(** The top-level elements of the value of a record. *)
Definition topElems (v : Value) : list Value :=
  match v with
  | VArray a _ => a
  | _ => []
  end.

(** The entries of a committed-seal list that are empty, and those that
    are not. *)
Definition isEmpty (a : bytes) : bool := len a =? 0.
Definition emptySeals (cs : list bytes) : list bytes := filter isEmpty cs.
Definition nonEmptySeals (cs : list bytes) : list bytes :=
  filter (fun a => negb (isEmpty a)) cs.

(** The values [MarshalRLPWith] builds, written out: the array of the
    validators, the value of the seal, the array of the committed seals
    that are not empty, and the top-level elements in the order in which
    they are appended. *)
Definition bytesArray (l : list bytes) : Value :=
  VArray (map VBytes l) (sumLen (map VBytes l)).

Definition sealValue (s : bytes) : Value :=
  if len s =? 0 then VNull else VBytes s.

Definition elemsOf (i : IstanbulExtra) : list Value :=
  [bytesArray (Validators i); sealValue (Seal i)]
    ++ (if len (CommittedSeal i) =? 0 then [VArrayNull]
        else repeat VNull (length (emptySeals (CommittedSeal i)))
               ++ [bytesArray (nonEmptySeals (CommittedSeal i))]).

(** A value that [GetAddr] accepts: a byte string of exactly 20 bytes. *)
Definition isAddr (v : Value) : bool :=
  match v with
  | VBytes b => len b =? 20
  | _ => false
  end.

(** The calls that mutate the record of a header, and the headers a
    sequence of such calls leaves behind, one per call. *)
Inductive call : Type :=
| set_seal (seal : bytes)
| set_committed_seals (seals : list bytes).

Definition do_call (h : Header) (c : call) : Header * option ibft_error :=
  match c with
  | set_seal seal => packSealIntoIbftExtra h seal
  | set_committed_seals seals => packCommittedSealIntoIbftExtra h seals
  end.

Fixpoint headers_after (h : Header) (cs : list call) : list Header :=
  match cs with
  | [] => []
  | c :: cs' =>
      let h' := fst (do_call h c) in
      h' :: headers_after h' cs'
  end.

(** The error kinds of the specification, as sets of the errors the code
    returns: [ExtensionTooShort] is the "wrong extra size" error of
    [getIbftExtra], [MalformedRecord] the "not enough elements" error of
    [UnmarshalRLPFrom], and [InvalidValidatorEncoding] what the block of
    [UnmarshalRLPFrom] that reads the validators returns: its "mismatch of
    RLP type" error, or the error of [GetAddr], which is passed on as it
    is. *)
Definition ExtensionTooShort (e : ibft_error) : bool :=
  match e with
  | ErrWrongExtraSize _ _ => true
  | _ => false
  end.

Definition MalformedRecord (e : ibft_error) : bool :=
  match e with
  | ErrNotEnoughElements _ => true
  | _ => false
  end.

Definition InvalidValidatorEncoding (e : ibft_error) : bool :=
  match e with
  | ErrValidatorsType _ => true
  | ErrWire ErrNoBytes => true
  | ErrWire (ErrBadLength expected found) =>
      (expected =? 20) && negb (found =? 20)
  | _ => false
  end.

(** Sample data. *)
Definition addrA : Address := repeat x0a 20.
Definition addrB : Address := repeat x0b 20.
Definition addrC : Address := repeat x0c 20.
Definition sigP : bytes := repeat x50 65.
Definition sig1 : bytes := repeat x51 65.
Definition sig2 : bytes := repeat x52 65.

(** A header whose field is 31 bytes long, and one whose field is a
    vanity of 32 bytes followed by the record of three validators. *)
Definition header31 : Header := mkHeader (repeat x2a 31).
Definition headerABC : Header :=
  fst (initIbftExtra (mkHeader (repeat x2a 40)) [addrA; addrB; addrC]).

(** The header [headerABC] after a seal and two committed seals were
    set. *)
Definition headerSealed : Header :=
  fst (packCommittedSealIntoIbftExtra
         (fst (packSealIntoIbftExtra headerABC sigP)) [sig1; sig2]).

(** A record with an empty entry among its committed seals. *)
Definition extraEmptyEntry : IstanbulExtra :=
  mkIstanbulExtra [addrA] [x05] [[]; [x07]].

End ibft_aux.

Export ibft_aux.

Module more_aux.

(** More sample data: a complete record, the header that holds it, a
    header whose field is a vanity and nothing else, and a header whose
    record has one committed seal, which is empty. *)
Definition extraFull : IstanbulExtra :=
  mkIstanbulExtra [addrA; addrB; addrC] sigP [sig1; sig2].

Definition headerFull : Header :=
  fst (putIbftExtra (mkHeader (repeat x2a 40)) extraFull).

Definition header32 : Header := mkHeader (repeat x2a 32).

Definition headerEmptySeal : Header :=
  mkHeader (repeat x2a 32 ++ [xc4; xc0; x80; xc1; x80]).

(** The header [headerABC] after the seal [sigP] and then the committed
    seals [[]; sig2], the first of which is empty, were set. *)
Definition headerEmptySig : Header :=
  fst (packCommittedSealIntoIbftExtra
         (fst (packSealIntoIbftExtra headerABC sigP)) [[]; sig2]).

(** The three readers of a header, together. *)
Definition unpacked (h : Header)
    : result ibft_error (list Address)
      * result ibft_error bytes
      * result ibft_error (list bytes) :=
  (unpackValidatorsFromIbftExtra h,
   unpackSealFromIbftExtra h,
   unpackCommittedSealFromIbftExtra h).

End more_aux.

Export more_aux.

(** * Properties *)

(** ** Bytes and numbers *)

Lemma b2n_bounded (b : byte) : b2n b < 256.
Proof.
  unfold b2n. pose proof (Byte.to_N_bounded b). lia.
Qed.

Lemma b2n_n2b (n : N) : b2n (n2b n) = n mod 256.
Proof.
  unfold b2n, n2b.
  destruct (Byte.of_N (n mod 256)) as [b|] eqn:E.
  - now apply Byte.to_of_N.
  - apply Byte.of_N_None_iff in E.
    pose proof (N.mod_upper_bound n 256). lia.
Qed.

Lemma b2n_n2b_small (n : N) : n < 256 -> b2n (n2b n) = n.
Proof.
  intros H. rewrite b2n_n2b. now apply N.mod_small.
Qed.

Lemma len_app {A : Type} (l1 l2 : list A) : len (l1 ++ l2) = len l1 + len l2.
Proof.
  unfold len. rewrite length_app. lia.
Qed.

Lemma len_cons {A : Type} (x : A) (l : list A) : len (x :: l) = 1 + len l.
Proof.
  unfold len. cbn [length]. lia.
Qed.

Lemma len_nil {A : Type} : len (@nil A) = 0.
Proof. reflexivity. Qed.

Lemma len_0_nil {A : Type} (l : list A) : len l = 0 -> l = [].
Proof.
  destruct l; [reflexivity | rewrite len_cons; lia].
Qed.

Lemma u64_sub_exact (a b : N) :
  b <= a -> a < u64_modulus -> u64_sub a b = a - b.
Proof.
  intros Hle Hlt. unfold u64_sub.
  rewrite (N.mod_small b) by lia.
  replace (a + u64_modulus - b) with (a - b + 1 * u64_modulus) by lia.
  rewrite N.Div0.mod_add. apply N.mod_small. lia.
Qed.

(** ** The wire codec *)

Module fastrlp_facts.

Lemma intsize_range (n : N) : 1 <= intsize n <= 8.
Proof.
  unfold intsize.
  repeat match goal with
         | |- context [?a <? ?b] => destruct (a <? b)
         end; lia.
Qed.

Lemma sizeBytes_length (size : N) :
  length (sizeBytes size) = N.to_nat (intsize size).
Proof.
  unfold sizeBytes. rewrite length_skipn. unfold PutUint64.
  rewrite length_map. cbn [length].
  pose proof (intsize_range size). lia.
Qed.

Lemma Uint64_digits (k : nat) (n acc : N) :
  fold_left (fun acc x => acc * 256 + b2n x) (digits k n) acc
  = acc * 256 ^ N.of_nat k + n mod 256 ^ N.of_nat k.
Proof.
  revert acc. induction k as [|k IH]; intros acc.
  - cbn. rewrite N.mod_1_r. lia.
  - unfold digits in *. rewrite seq_S, rev_app_distr. cbn [rev app map fold_left plus].
    rewrite IH, b2n_n2b, Nat2N.inj_succ, N.pow_succ_r'.
    rewrite (N.mul_comm 256 (256 ^ N.of_nat k)).
    rewrite (N.Div0.mod_mul_r n (256 ^ N.of_nat k) 256). lia.
Qed.

Lemma sizeBytes_digits (size : N) :
  size < u64_modulus ->
  sizeBytes size = digits (N.to_nat (intsize size)) size.
Proof.
  intros Hlt. unfold sizeBytes, u64. rewrite (N.mod_small size) by exact Hlt.
  unfold PutUint64. cbn [map]. rewrite !N.shiftr_div_pow2.
  unfold intsize.
  repeat match goal with
         | |- context [if ?a <? ?b then _ else _] => destruct (a <? b)
         end; reflexivity.
Qed.

Lemma intsize_bound (size : N) :
  size < u64_modulus -> size < 256 ^ intsize size.
Proof.
  unfold u64_modulus, intsize. intros Hlt.
  repeat match goal with
         | |- context [if ?a <? ?b then _ else _] =>
             destruct (N.ltb_spec a b)
         end;
    match goal with
    | |- _ < ?c => let c' := eval vm_compute in c in change c with c'
    end; lia.
Qed.

Lemma readUint_sizeBytes (size : N) :
  size < u64_modulus -> readUint (sizeBytes size) = size.
Proof.
  intros Hlt. unfold readUint, Uint64.
  rewrite fold_left_app.
  assert (Hz : forall m, fold_left (fun acc x => acc * 256 + b2n x)
                           (repeat x00 m) 0 = 0).
  { induction m as [|m IH]; [reflexivity | exact IH]. }
  rewrite Hz, sizeBytes_digits, Uint64_digits by exact Hlt.
  rewrite N2Nat.id, N.mod_small by now apply intsize_bound.
  lia.
Qed.

End fastrlp_facts.

Module fastrlp_roundtrip.
Import fastrlp_facts.

(** Induction on values, with the hypothesis for every element of an
    array. *)
Lemma Value_rect_nested (P : Value -> Prop)
    (Harray : forall a l, Forall P a -> P (VArray a l))
    (Hbytes : forall b, P (VBytes b))
    (Hnull : P VNull)
    (Harraynull : P VArrayNull) :
  forall v, P v.
Proof.
  fix IH 1. intros [a l | b | | ].
  - apply Harray. induction a as [|c a IHa]; constructor.
    + apply IH.
    + exact IHa.
  - apply Hbytes.
  - exact Hnull.
  - exact Harraynull.
Qed.

Lemma fold_MarshalTo (a : list Value) :
  Forall (fun v => forall dst, MarshalTo v dst = dst ++ enc v) a ->
  forall dst, fold_left (fun dst vv => MarshalTo vv dst) a dst = dst ++ encs a.
Proof.
  induction 1 as [|c a Hc _ IH]; intros dst; cbn [fold_left encs flat_map].
  - now rewrite app_nil_r.
  - rewrite IH, Hc. fold (encs a). now rewrite <- app_assoc.
Qed.

(** [MarshalTo] appends to [dst]. *)
Lemma MarshalTo_app (v : Value) (dst : bytes) :
  MarshalTo v dst = dst ++ enc v.
Proof.
  revert dst. induction v as [a l IH | b | | ] using Value_rect_nested;
    intros dst; unfold enc.
  - cbn [MarshalTo]. rewrite !(fold_MarshalTo a IH).
    unfold marshalLongSize. destruct (l <? 56); cbn [app];
      now rewrite <- ?app_assoc.
  - cbn [MarshalTo]. unfold marshalLongSize.
    destruct b as [|b0 [|b1 b]];
      repeat match goal with
             | |- context [if ?c then _ else _] => destruct c
             end; cbn [app]; now rewrite <- ?app_assoc.
  - reflexivity.
  - reflexivity.
Qed.

(** The header of an array with payload length [l]. *)
Lemma enc_VArray (a : list Value) (l : N) :
  enc (VArray a l)
  = (if l <? 56 then [n2b (192 + l)]
     else n2b (247 + intsize l) :: sizeBytes l) ++ encs a.
Proof.
  unfold enc. cbn [MarshalTo].
  rewrite fold_MarshalTo by (apply Forall_forall; intros; apply MarshalTo_app).
  unfold marshalLongSize. now destruct (l <? 56).
Qed.

Lemma enc_VBytes (b : bytes) :
  enc (VBytes b)
  = match b with
    | [b0] => if b2n b0 <=? 127 then b else n2b (128 + len b) :: b
    | _ => if len b <? 56 then n2b (128 + len b) :: b
           else n2b (183 + intsize (len b)) :: sizeBytes (len b) ++ b
    end.
Proof.
  unfold enc. cbn [MarshalTo]. unfold marshalLongSize.
  destruct b as [|b0 [|b1 b]];
    repeat match goal with
           | |- context [if ?c then _ else _] => destruct c
           end; cbn [app]; now rewrite <- ?app_assoc.
Qed.

Lemma len_sizeBytes (size : N) : len (sizeBytes size) = intsize size.
Proof.
  unfold len. rewrite sizeBytes_length. apply N2Nat.id.
Qed.

Lemma consistent_array (a : list Value) (l : N) :
  consistent (VArray a l) = true ->
  Forall (fun v => consistent v = true) a /\ l = sumLen a.
Proof.
  cbn [consistent]. rewrite !andb_true_iff, forallb_forall, N.eqb_eq.
  intros [Ha Hl]. split; [now apply Forall_forall | assumption].
Qed.

Lemma wfValue_array (a : list Value) (l : N) :
  wfValue (VArray a l) = true ->
  Forall (fun v => wfValue v = true) a /\ l = sumLen a /\ l < u64_modulus.
Proof.
  cbn [wfValue]. rewrite !andb_true_iff, forallb_forall, N.eqb_eq, N.ltb_lt.
  intros [[Ha Hl] Hb]. repeat split; try assumption.
  now apply Forall_forall.
Qed.

Lemma len_encs_cons (c : Value) (a : list Value) :
  len (encs (c :: a)) = len (enc c) + len (encs a).
Proof.
  unfold encs. cbn [flat_map]. apply len_app.
Qed.

(** [fullLen] is the length of the encoding. *)
Lemma len_enc_consistent (v : Value) :
  consistent v = true -> len (enc v) = fullLen v.
Proof.
  induction v as [a l IH | b | | ] using Value_rect_nested; intros Hwf.
  - apply consistent_array in Hwf. destruct Hwf as (Ha & Hl).
    assert (Hs : len (encs a) = sumLen a).
    { clear Hl. induction a as [|c a IHa]; [reflexivity|].
      inversion IH; inversion Ha; subst.
      rewrite len_encs_cons. cbn [sumLen fold_right]. fold (sumLen a).
      rewrite IHa by assumption. f_equal. auto. }
    rewrite enc_VArray, len_app, Hs, <- Hl. cbn [fullLen].
    destruct (l <? 56).
    + rewrite len_cons, len_nil. lia.
    + rewrite len_cons, len_sizeBytes. lia.
  - rewrite enc_VBytes. cbn [fullLen].
    destruct b as [|b0 [|b1 b]];
      repeat match goal with
             | |- context [if ?c then _ else _] => destruct c
             end;
      repeat (rewrite len_cons || rewrite len_app);
      rewrite ?len_sizeBytes, ?len_nil; lia.
  - reflexivity.
  - reflexivity.
Qed.

Lemma wfValue_consistent (v : Value) :
  wfValue v = true -> consistent v = true.
Proof.
  induction v as [a l IH | b | | ] using Value_rect_nested; intros Hwf;
    try reflexivity.
  apply wfValue_array in Hwf. destruct Hwf as (Ha & Hl & _).
  cbn [consistent]. rewrite andb_true_iff, forallb_forall, N.eqb_eq.
  split; [|assumption]. rewrite Forall_forall in IH, Ha. auto.
Qed.

Lemma len_enc (v : Value) : wfValue v = true -> len (enc v) = fullLen v.
Proof.
  intros H. now apply len_enc_consistent, wfValue_consistent.
Qed.

Lemma fullLen_pos (v : Value) : 1 <= fullLen v.
Proof.
  destruct v as [a l | b | | ]; cbn [fullLen]; try lia.
  - destruct (l <? 56); lia.
  - destruct b as [|b0 [|b1 b]];
      repeat match goal with
             | |- context [if ?c then _ else _] => destruct c
             end; lia.
Qed.

Lemma firstn_len_app {A : Type} (l1 l2 : list A) :
  firstn (N.to_nat (len l1)) (l1 ++ l2) = l1.
Proof.
  unfold len. rewrite Nat2N.id, firstn_app, firstn_all, Nat.sub_diag.
  cbn [firstn]. apply app_nil_r.
Qed.

Lemma skipn_len_app {A : Type} (l1 l2 : list A) :
  skipn (N.to_nat (len l1)) (l1 ++ l2) = l2.
Proof.
  unfold len. rewrite Nat2N.id, skipn_app, skipn_all, Nat.sub_diag.
  reflexivity.
Qed.

Lemma parseBytes_app (b tail : bytes) :
  parseBytes (b ++ tail) (len b) = POk (VBytes b, tail).
Proof.
  unfold parseBytes. rewrite len_app.
  destruct (N.ltb_spec (len b + len tail) (len b)); [lia|].
  now rewrite firstn_len_app, skipn_len_app.
Qed.

(** Reading back a long size. *)
Lemma read_sizeBytes (size : N) (rest : bytes) :
  size < u64_modulus ->
  readUint (firstn (N.to_nat (intsize size)) (sizeBytes size ++ rest)) = size
  /\ skipn (N.to_nat (intsize size)) (sizeBytes size ++ rest) = rest.
Proof.
  intros Hlt. rewrite <- len_sizeBytes.
  rewrite firstn_len_app, skipn_len_app. split; [|reflexivity].
  now apply readUint_sizeBytes.
Qed.

Lemma sumLen_cons (c : Value) (a : list Value) :
  sumLen (c :: a) = fullLen c + sumLen a.
Proof. reflexivity. Qed.

(** The loop of [parseList] reads back a sequence of encoded values. *)
Lemma parseElems_encs (pv : bytes -> presult (Value * bytes))
    (a : list Value) :
  Forall (fun c => wfValue c = true
                   /\ forall tail, pv (enc c ++ tail) = POk (norm c, tail)) a ->
  sumLen a < u64_modulus ->
  forall (k : nat) (acc : list Value) (tail : bytes),
    (length a <= k)%nat ->
    parseElems pv k (encs a ++ tail) (sumLen a) acc
    = POk (acc ++ map norm a, tail).
Proof.
  induction 1 as [|c a [Hwf Hc] _ IH]; intros Hlt k acc tail Hk.
  - cbn [sumLen fold_right encs flat_map app map].
    rewrite app_nil_r. now destruct k.
  - rewrite sumLen_cons in *.
    pose proof (fullLen_pos c) as Hpos.
    destruct k as [|k]; [cbn [length] in Hk; lia|].
    cbn [parseElems].
    destruct (N.eqb_spec (fullLen c + sumLen a) 0) as [E|_]; [lia|].
    unfold encs. cbn [flat_map]. fold (encs a).
    rewrite <- app_assoc, Hc.
    rewrite len_app, len_enc by exact Hwf.
    replace (fullLen c + len (encs a ++ tail) - len (encs a ++ tail))
      with (fullLen c) by lia.
    rewrite u64_sub_exact by lia.
    replace (fullLen c + sumLen a - fullLen c) with (sumLen a) by lia.
    rewrite IH by (cbn [length] in Hk; lia).
    cbn [map]. now rewrite <- app_assoc.
Qed.

Lemma fullLen_le_sumLen (a : list Value) (c : Value) :
  In c a -> fullLen c <= sumLen a.
Proof.
  induction a as [|x a IH]; [intros []|].
  rewrite sumLen_cons. intros [->|Hin]; [lia|].
  specialize (IH Hin). lia.
Qed.

(** A consistent value whose encoding has a [uint64] length is
    well-formed. *)
Lemma consistent_wfValue (v : Value) :
  consistent v = true -> fullLen v < u64_modulus -> wfValue v = true.
Proof.
  induction v as [a l IH | b | | ] using Value_rect_nested;
    intros Hc Hlt; try reflexivity.
  - apply consistent_array in Hc. destruct Hc as (Ha & Hl).
    assert (Hl' : l < u64_modulus).
    { cbn [fullLen] in Hlt. destruct (l <? 56); lia. }
    cbn [wfValue]. rewrite !andb_true_iff, forallb_forall, N.eqb_eq, N.ltb_lt.
    repeat split; try assumption.
    intros c Hin. rewrite Forall_forall in IH, Ha.
    apply IH; auto.
    pose proof (fullLen_le_sumLen a c Hin). lia.
  - cbn [wfValue]. apply N.ltb_lt. cbn [fullLen] in Hlt.
    destruct b as [|b0 [|b1 b]];
      repeat match goal with
             | H : context [if ?c then _ else _] |- _ => destruct c
             end; rewrite ?len_cons, ?len_nil in *;
      unfold u64_modulus in *; lia.
Qed.

Lemma len_encs_sumLen (a : list Value) :
  Forall (fun v => wfValue v = true) a -> len (encs a) = sumLen a.
Proof.
  induction 1 as [|c a Hc _ IH]; [reflexivity|].
  rewrite len_encs_cons, sumLen_cons, IH. f_equal. now apply len_enc.
Qed.

Lemma length_le_sumLen (a : list Value) : len a <= sumLen a.
Proof.
  induction a as [|c a IH]; [reflexivity|].
  rewrite len_cons, sumLen_cons. pose proof (fullLen_pos c). lia.
Qed.

Lemma parseList_encs (pv : bytes -> presult (Value * bytes))
    (a : list Value) (tail : bytes) :
  Forall (fun c => wfValue c = true
                   /\ forall tail, pv (enc c ++ tail) = POk (norm c, tail)) a ->
  sumLen a < u64_modulus ->
  parseList pv (encs a ++ tail) (sumLen a)
  = POk (VArray (map norm a) (sumLen a), tail).
Proof.
  intros Ha Hlt. unfold parseList.
  assert (Hwf : Forall (fun v => wfValue v = true) a).
  { eapply Forall_impl; [|exact Ha]. now intros c [H _]. }
  pose proof (len_encs_sumLen a Hwf) as Hl.
  pose proof (length_le_sumLen a) as Hn.
  rewrite len_app, Hl.
  destruct (N.ltb_spec (sumLen a + len tail) (sumLen a)); [lia|].
  rewrite (parseElems_encs pv a Ha Hlt); [reflexivity|].
  rewrite length_app. unfold len in *. lia.
Qed.

Lemma depth_elem (a : list Value) (c : Value) :
  In c a -> (depth c <= fold_right (fun c d => Nat.max (depth c) d) O a)%nat.
Proof.
  induction a as [|x a IH]; [intros []|].
  intros [->|Hin]; cbn [fold_right]; [lia|].
  specialize (IH Hin). lia.
Qed.

(** Every well-formed value is read back as its normal form, whatever
    follows it, as soon as the fuel exceeds its depth. *)
Lemma parseValue_enc (v : Value) :
  wfValue v = true ->
  forall (fuel : nat) (tail : bytes),
    (depth v < fuel)%nat ->
    parseValue fuel (enc v ++ tail) = POk (norm v, tail).
Proof.
  induction v as [a l IH | b | | ] using Value_rect_nested;
    intros Hwf fuel tail Hfuel;
    (destruct fuel as [|fuel]; [lia|]).
  - apply wfValue_array in Hwf. destruct Hwf as (Ha & Hl & Hlt).
    cbn [depth] in Hfuel.
    assert (Hpv :
      Forall (fun c => wfValue c = true
                /\ forall tail, parseValue fuel (enc c ++ tail)
                                = POk (norm c, tail)) a).
    { apply Forall_forall. intros c Hin.
      rewrite Forall_forall in IH, Ha.
      split; [now apply Ha|]. intros tl. apply IH; auto.
      pose proof (depth_elem a c Hin). lia. }
    rewrite enc_VArray. cbn [norm]. subst l.
    destruct (N.ltb_spec (sumLen a) 56) as [Hs|Hs].
    + cbn [app parseValue]. rewrite b2n_n2b_small by lia.
      repeat match goal with
             | |- context [if ?x <? ?y then _ else _] =>
                 destruct (N.ltb_spec x y); try lia
             end.
      replace (192 + sumLen a - 192) with (sumLen a) by lia.
      now apply parseList_encs.
    + pose proof (intsize_range (sumLen a)) as Hk.
      cbn [app parseValue]. rewrite b2n_n2b_small by lia.
      rewrite len_cons, len_app, len_app, len_sizeBytes.
      replace (247 + intsize (sumLen a) - 247) with (intsize (sumLen a)) by lia.
      rewrite <- app_assoc.
      destruct (read_sizeBytes (sumLen a) (encs a ++ tail) Hlt) as [-> ->].
      repeat match goal with
             | |- context [if ?x <? ?y then _ else _] =>
                 destruct (N.ltb_spec x y); try lia
             end.
      now apply parseList_encs.
  - cbn [wfValue] in Hwf. apply N.ltb_lt in Hwf.
    rewrite enc_VBytes. cbn [norm].
    destruct b as [|b0 [|b1 b]].
    + exact (parseBytes_app [] tail).
    + destruct (N.leb_spec (b2n b0) 127) as [Hb|Hb].
      * cbn [app parseValue].
        destruct (N.ltb_spec (b2n b0) 128); [reflexivity|lia].
      * exact (parseBytes_app [b0] tail).
    + set (bs := b0 :: b1 :: b) in *.
      destruct (N.ltb_spec (len bs) 56) as [Hs|Hs].
      * cbn [app parseValue]. rewrite b2n_n2b_small by lia.
        repeat match goal with
               | |- context [if ?x <? ?y then _ else _] =>
                   destruct (N.ltb_spec x y); try lia
               end.
        replace (128 + len bs - 128) with (len bs) by lia.
        apply parseBytes_app.
      * pose proof (intsize_range (len bs)) as Hk.
        cbn [app parseValue]. rewrite b2n_n2b_small by lia.
        rewrite len_cons, len_app, len_app, len_sizeBytes.
        replace (183 + intsize (len bs) - 183) with (intsize (len bs)) by lia.
        rewrite <- app_assoc.
        destruct (read_sizeBytes (len bs) (bs ++ tail) Hwf) as [-> ->].
        repeat match goal with
               | |- context [if ?x <? ?y then _ else _] =>
                   destruct (N.ltb_spec x y); try lia
               end.
        apply parseBytes_app.
  - exact (parseBytes_app [] tail).
  - exact (parseList_encs (parseValue fuel) [] tail (Forall_nil _) eq_refl).
Qed.

Lemma depth_le_enc (v : Value) :
  wfValue v = true -> (depth v <= length (enc v))%nat.
Proof.
  induction v as [a l IH | b | | ] using Value_rect_nested; intros Hwf;
    try (cbn [depth]; lia).
  apply wfValue_array in Hwf. destruct Hwf as (Ha & _ & _).
  rewrite enc_VArray, length_app. cbn [depth].
  assert (Hd : (fold_right (fun c d => Nat.max (depth c) d) O a
                <= length (encs a))%nat).
  { induction a as [|c a IHa]; [cbn; lia|].
    inversion IH; inversion Ha; subst.
    unfold encs. cbn [fold_right flat_map]. fold (encs a).
    rewrite length_app. specialize (IHa ltac:(assumption) ltac:(assumption)).
    assert (depth c <= length (enc c))%nat by auto. lia. }
  destruct (l <? 56); cbn [length]; lia.
Qed.

(** The round trip of the wire codec: parsing the encoding of a
    well-formed value, followed by anything, gives its normal form. *)
Lemma Parse_enc (v : Value) (tail : bytes) :
  wfValue v = true -> Parse (enc v ++ tail) = POk (norm v).
Proof.
  intros Hwf. unfold Parse.
  rewrite parseValue_enc; [reflexivity | exact Hwf |].
  pose proof (depth_le_enc v Hwf). rewrite length_app. lia.
Qed.

End fastrlp_roundtrip.

(** The recursion bounds of the model are never reached: [Parse] returns
    what the Go parser returns, a value or one of its own errors. *)
Module fastrlp_total.

Lemma parseBytes_length (b : bytes) (size : N) (v : Value) (t : bytes) :
  parseBytes b size = POk (v, t) -> (length t <= length b)%nat.
Proof.
  unfold parseBytes. destruct (len b <? size); [discriminate|].
  intros [= _ <-]. rewrite length_skipn. lia.
Qed.

Lemma parseElems_length (pv : bytes -> presult (Value * bytes)) :
  consumes pv ->
  forall k b size a a' t,
    parseElems pv k b size a = POk (a', t) -> (length t <= length b)%nat.
Proof.
  intros Hpv. induction k as [|k IH]; intros b size a a' t; cbn [parseElems];
    destruct (size =? 0); try discriminate; try (intros [= _ <-]; lia).
  destruct (pv b) as [[vv b']|e] eqn:E; [|discriminate].
  intros H. apply IH in H. apply Hpv in E. lia.
Qed.

Lemma parseList_length (pv : bytes -> presult (Value * bytes)) :
  consumes pv ->
  forall b size v t,
    parseList pv b size = POk (v, t) -> (length t <= length b)%nat.
Proof.
  intros Hpv b size v t. unfold parseList.
  destruct (len b <? size); [discriminate|].
  destruct (parseElems pv (S (length b)) b size []) as [[a tl]|e] eqn:E;
    [|discriminate].
  intros [= _ <-]. eapply parseElems_length; eassumption.
Qed.

Lemma parseValue_consumes (fuel : nat) : consumes (parseValue fuel).
Proof.
  induction fuel as [|fuel IH]; intros b v t; cbn [parseValue];
    [discriminate|].
  destruct b as [|cur rest]; [discriminate|].
  repeat match goal with
         | |- context [if ?c then _ else _] => destruct c
         end; try discriminate; intros H.
  - injection H as _ <-. cbn [length]. lia.
  - apply parseBytes_length in H. cbn [length]. lia.
  - apply parseBytes_length in H. rewrite length_skipn in H.
    cbn [length]. lia.
  - apply (parseList_length _ IH) in H. cbn [length]. lia.
  - apply (parseList_length _ IH) in H. rewrite length_skipn in H.
    cbn [length]. lia.
Qed.

Lemma parseElems_no_fuel (pv : bytes -> presult (Value * bytes)) (n : nat) :
  consumes pv ->
  (forall b, (length b <= n)%nat -> pv b <> PErr PFuel) ->
  forall k b size a,
    (length b <= n)%nat -> (length b < k)%nat ->
    parseElems pv k b size a <> PErr PFuel.
Proof.
  intros Hc Hpv. induction k as [|k IH]; intros b size a Hn Hk; [lia|].
  cbn [parseElems]. destruct (size =? 0); [discriminate|].
  destruct (pv b) as [[vv b']|e] eqn:E.
  - apply Hc in E. apply IH; lia.
  - intros [= ->]. now apply (Hpv b Hn).
Qed.

Lemma parseList_no_fuel (pv : bytes -> presult (Value * bytes)) (n : nat) :
  consumes pv ->
  (forall b, (length b <= n)%nat -> pv b <> PErr PFuel) ->
  forall b size, (length b <= n)%nat -> parseList pv b size <> PErr PFuel.
Proof.
  intros Hc Hpv b size Hn. unfold parseList.
  destruct (len b <? size); [discriminate|].
  destruct (parseElems pv (S (length b)) b size []) as [[a tl]|e] eqn:E;
    [discriminate|].
  intros [= ->]. revert E. apply (parseElems_no_fuel pv n); auto.
Qed.

Lemma parseValue_no_fuel (fuel : nat) (b : bytes) :
  (length b < fuel)%nat -> parseValue fuel b <> PErr PFuel.
Proof.
  revert b. induction fuel as [|fuel IH]; intros b Hlen; [lia|].
  cbn [parseValue]. destruct b as [|cur rest]; [discriminate|].
  cbn [length] in Hlen.
  assert (Hpv : forall b', (length b' <= length rest)%nat ->
                           parseValue fuel b' <> PErr PFuel).
  { intros b' Hb'. apply IH. lia. }
  pose proof (parseValue_consumes fuel) as Hc.
  unfold parseBytes.
  repeat match goal with
         | |- context [if ?c then _ else _] => destruct c
         end; try discriminate;
    apply (parseList_no_fuel _ (length rest) Hc Hpv);
    rewrite ?length_skipn; lia.
Qed.

Lemma Parse_fuel_enough (b : bytes) : Parse b <> PErr PFuel.
Proof.
  unfold Parse.
  destruct (parseValue (S (length b)) b) as [[v t]|e] eqn:E; [discriminate|].
  intros [= ->]. revert E. apply parseValue_no_fuel. lia.
Qed.

End fastrlp_total.

(** ** The record codec *)

Module ibft_facts.
Import fastrlp_facts fastrlp_roundtrip.

Lemma sumLen_app (a b : list Value) : sumLen (a ++ b) = sumLen a + sumLen b.
Proof.
  induction a as [|c a IH]; [reflexivity|].
  cbn [app]. rewrite !sumLen_cons, IH. lia.
Qed.

Lemma fold_Set_bytes (l : list bytes) (a0 : list Value) (l0 : N) :
  fold_left (fun vals a => Value_Set vals (NewBytes (Bytes a))) l (VArray a0 l0)
  = VArray (a0 ++ map VBytes l) (l0 + sumLen (map VBytes l)).
Proof.
  revert a0 l0. induction l as [|a l IH]; intros a0 l0; cbn [fold_left map].
  - now rewrite app_nil_r, N.add_0_r.
  - cbn [Value_Set]. rewrite IH, <- app_assoc, sumLen_cons.
    unfold NewBytes, Bytes. cbn [app]. f_equal. lia.
Qed.

Lemma fold_committed (cs : list bytes) (va ca : list Value) (vl cl : N) :
  fold_left
    (fun '(vv, committed) a =>
       if len a =? 0 then (Value_Set vv NewNull, committed)
       else (vv, Value_Set committed (NewBytes a)))
    cs (VArray va vl, VArray ca cl)
  = (VArray (va ++ repeat VNull (length (emptySeals cs)))
       (vl + sumLen (repeat VNull (length (emptySeals cs)))),
     VArray (ca ++ map VBytes (nonEmptySeals cs))
       (cl + sumLen (map VBytes (nonEmptySeals cs)))).
Proof.
  revert va ca vl cl.
  induction cs as [|a cs IH]; intros va ca vl cl; cbn [fold_left].
  - cbn. now rewrite !app_nil_r, !N.add_0_r.
  - unfold emptySeals, nonEmptySeals. cbn [filter].
    fold (emptySeals cs). fold (nonEmptySeals cs).
    change (isEmpty a) with (len a =? 0).
    destruct (len a =? 0); cbn [negb Value_Set]; rewrite IH;
      cbn [length repeat map]; rewrite <- !app_assoc, ?sumLen_cons;
      cbn [app]; unfold NewNull, NewBytes;
      f_equal; f_equal; lia.
Qed.

(** The value of a record, written out. *)
Lemma MarshalRLPWith_eq (i : IstanbulExtra) :
  MarshalRLPWith i = VArray (elemsOf i) (sumLen (elemsOf i)).
Proof.
  unfold MarshalRLPWith, elemsOf, sealValue.
  unfold NewArray, NewNull, NewNullArray, NewBytes.
  rewrite fold_Set_bytes. cbn [app]. rewrite N.add_0_l.
  fold (bytesArray (Validators i)).
  destruct (len (Seal i) =? 0); destruct (len (CommittedSeal i) =? 0);
    cbn [Value_Set app]; rewrite ?fold_committed; cbn [Value_Set app];
    rewrite ?N.add_0_l;
    fold (bytesArray (nonEmptySeals (CommittedSeal i)));
    rewrite <- ?app_assoc; cbn [app]; f_equal;
    rewrite !sumLen_cons, ?sumLen_app, ?sumLen_cons;
    cbn [sumLen fold_right]; lia.
Qed.

Lemma topElems_MarshalRLPWith (i : IstanbulExtra) :
  topElems (MarshalRLPWith i) = elemsOf i.
Proof. now rewrite MarshalRLPWith_eq. Qed.

(** The number of top-level elements of the value of a record: three, and
    one more for every empty entry of a non-empty list of committed
    seals. *)
Lemma len_topElems (i : IstanbulExtra) :
  len (topElems (MarshalRLPWith i))
  = if len (CommittedSeal i) =? 0 then 3
    else 3 + len (emptySeals (CommittedSeal i)).
Proof.
  rewrite topElems_MarshalRLPWith. unfold elemsOf.
  destruct (len (CommittedSeal i) =? 0); [reflexivity|].
  repeat (rewrite len_cons || rewrite len_app).
  unfold len. rewrite repeat_length. cbn [length]. lia.
Qed.

Lemma consistent_bytesArray (l : list bytes) :
  consistent (bytesArray l) = true.
Proof.
  unfold bytesArray. cbn [consistent].
  rewrite N.eqb_refl, andb_true_r. apply forallb_forall.
  intros v Hin. apply in_map_iff in Hin. now destruct Hin as (b & <- & _).
Qed.

Lemma consistent_MarshalRLPWith (i : IstanbulExtra) :
  consistent (MarshalRLPWith i) = true.
Proof.
  rewrite MarshalRLPWith_eq. cbn [consistent].
  rewrite N.eqb_refl, andb_true_r. apply forallb_forall.
  intros v. unfold elemsOf. cbn [app In].
  intros [<- | [<- | Hin]].
  - apply consistent_bytesArray.
  - unfold sealValue. now destruct (len (Seal i) =? 0).
  - destruct (len (CommittedSeal i) =? 0).
    + now destruct Hin as [<- | []].
    + apply in_app_or in Hin. destruct Hin as [Hin | [<- | []]].
      * now apply repeat_spec in Hin as ->.
      * apply consistent_bytesArray.
Qed.

(** The encoding of a record that fits a Go slice is well-formed. *)
Lemma wfValue_MarshalRLPWith (i : IstanbulExtra) (dst : bytes) :
  go_slice (MarshalRLPTo i dst) -> wfValue (MarshalRLPWith i) = true.
Proof.
  unfold go_slice, MarshalRLPTo, types.MarshalRLPTo. intros Hs.
  apply consistent_wfValue; [apply consistent_MarshalRLPWith|].
  rewrite MarshalTo_app, len_app in Hs.
  rewrite len_enc_consistent in Hs by apply consistent_MarshalRLPWith.
  unfold max_int, u64_modulus in *. lia.
Qed.

Lemma norm_bytesArray (l : list bytes) : norm (bytesArray l) = bytesArray l.
Proof.
  unfold bytesArray. cbn [norm]. f_equal.
  rewrite map_map. now apply map_ext.
Qed.

Lemma norm_sealValue (s : bytes) : norm (sealValue s) = VBytes s.
Proof.
  unfold sealValue. destruct (N.eqb_spec (len s) 0) as [E|_]; [|reflexivity].
  apply len_0_nil in E. now subst.
Qed.

Lemma getAddrs_bytes (vs : list Address) :
  Forall wf_Address vs -> getAddrs (map VBytes vs) = Ok vs.
Proof.
  induction 1 as [|a vs Ha _ IH]; [reflexivity|].
  cbn [map getAddrs]. unfold GetAddr, GetBytes.
  unfold wf_Address, AddressLength in Ha. rewrite Ha, IH. reflexivity.
Qed.

Lemma getSeals_bytes (cs : list bytes) : getSeals (map VBytes cs) = Ok cs.
Proof.
  induction cs as [|a cs IH]; [reflexivity|].
  cbn [map getSeals GetBytes firstn app]. now rewrite IH.
Qed.

Lemma nonEmptySeals_all (cs : list bytes) :
  emptySeals cs = [] -> nonEmptySeals cs = cs.
Proof.
  unfold emptySeals, nonEmptySeals.
  induction cs as [|a cs IH]; [reflexivity|]. cbn [filter].
  destruct (isEmpty a); [discriminate|]. intros H. cbn [negb]. now rewrite IH.
Qed.

(** What the decoder sees of an encoded record. *)
Lemma UnmarshalRLP_MarshalRLPTo (i : IstanbulExtra) (tail : bytes) :
  go_slice (MarshalRLPTo i []) ->
  UnmarshalRLP (MarshalRLPTo i [] ++ tail)
  = UnmarshalRLPFrom (VArray (map norm (elemsOf i)) (sumLen (elemsOf i))).
Proof.
  intros Hs. apply wfValue_MarshalRLPWith in Hs.
  unfold UnmarshalRLP, UnmarshalRlp, MarshalRLPTo, types.MarshalRLPTo.
  fold (enc (MarshalRLPWith i)).
  rewrite Parse_enc by exact Hs.
  now rewrite MarshalRLPWith_eq.
Qed.

(** The round trip of the record codec, for the records whose committed
    seals are all non-empty. *)
Lemma UnmarshalRLP_MarshalRLPTo_ok (i : IstanbulExtra) (tail : bytes) :
  Forall wf_Address (Validators i) ->
  emptySeals (CommittedSeal i) = [] ->
  go_slice (MarshalRLPTo i []) ->
  UnmarshalRLP (MarshalRLPTo i [] ++ tail) = Ok i.
Proof.
  intros Hv He Hs. rewrite UnmarshalRLP_MarshalRLPTo by exact Hs.
  unfold elemsOf. rewrite He, (nonEmptySeals_all _ He). cbn [length repeat app].
  destruct i as [vs s cs]. cbn [Validators Seal CommittedSeal] in *.
  destruct (N.eqb_spec (len cs) 0) as [E|_].
  - apply len_0_nil in E. subst cs.
    cbn [map]. rewrite norm_bytesArray, norm_sealValue.
    unfold bytesArray. cbn [UnmarshalRLPFrom GetElems norm].
    rewrite getAddrs_bytes by exact Hv. reflexivity.
  - cbn [map]. rewrite !norm_bytesArray, norm_sealValue.
    unfold bytesArray. cbn [UnmarshalRLPFrom GetElems].
    rewrite getAddrs_bytes by exact Hv.
    cbn [GetBytes firstn app]. now rewrite getSeals_bytes.
Qed.

(** The record codec on a record with an empty entry among its committed
    seals: every empty entry has become a top-level element, and the
    decoder refuses the record. *)
Lemma UnmarshalRLP_MarshalRLPTo_empty_entry (i : IstanbulExtra) (tail : bytes) :
  emptySeals (CommittedSeal i) <> [] ->
  go_slice (MarshalRLPTo i []) ->
  UnmarshalRLP (MarshalRLPTo i [] ++ tail)
  = Err (ErrNotEnoughElements (3 + len (emptySeals (CommittedSeal i)))).
Proof.
  intros He Hs. rewrite UnmarshalRLP_MarshalRLPTo by exact Hs.
  unfold elemsOf.
  destruct (N.eqb_spec (len (CommittedSeal i)) 0) as [E|_].
  - apply len_0_nil in E. rewrite E in He. now contradiction He.
  - destruct (emptySeals (CommittedSeal i)) as [|e es]; [now contradiction He|].
    cbn [length repeat app map norm]. cbn [UnmarshalRLPFrom GetElems].
    rewrite map_app. cbn [map].
    destruct (map norm (repeat VNull (length es))
                ++ [norm (bytesArray (nonEmptySeals (CommittedSeal i)))])
      as [|x xs] eqn:El.
    + now apply app_eq_nil in El as [_ El].
    + f_equal. f_equal. rewrite <- El.
      repeat (rewrite len_cons || rewrite len_app).
      unfold len. rewrite length_map, repeat_length. cbn [length]. lia.
Qed.

End ibft_facts.

(** ** The header functions *)

Module header_facts.
Import fastrlp_facts fastrlp_roundtrip ibft_facts.

Lemma vanity_nat : N.to_nat IstanbulExtraVanity = 32%nat.
Proof. reflexivity. Qed.

Lemma firstn_zeroBytes (k : nat) :
  (k <= 32)%nat -> firstn k zeroBytes = repeat x00 k.
Proof.
  intros Hk. unfold zeroBytes.
  replace 32%nat with (k + (32 - k))%nat by lia.
  rewrite repeat_app, firstn_app, repeat_length, Nat.sub_diag.
  cbn [firstn]. rewrite app_nil_r.
  rewrite <- (repeat_length x00 k) at 1. apply firstn_all.
Qed.

Lemma normalize_prefix_short (extra : bytes) :
  len extra < IstanbulExtraVanity ->
  normalize_prefix extra = extra ++ repeat x00 (32 - length extra).
Proof.
  intros Hlt. unfold normalize_prefix.
  destruct (N.ltb_spec (len extra) IstanbulExtraVanity); [|lia].
  f_equal. unfold len, IstanbulExtraVanity in *.
  replace (N.to_nat (32 - N.of_nat (length extra)))
    with (32 - length extra)%nat by lia.
  apply firstn_zeroBytes. lia.
Qed.

Lemma normalize_prefix_long (extra : bytes) :
  IstanbulExtraVanity <= len extra ->
  normalize_prefix extra = vanity extra.
Proof.
  intros Hle. unfold normalize_prefix.
  destruct (N.ltb_spec (len extra) IstanbulExtraVanity); [lia|reflexivity].
Qed.

Lemma length_normalize_prefix (extra : bytes) :
  length (normalize_prefix extra) = 32%nat.
Proof.
  destruct (N.lt_ge_cases (len extra) IstanbulExtraVanity) as [H|H].
  - rewrite normalize_prefix_short by exact H.
    rewrite length_app, repeat_length.
    unfold len, IstanbulExtraVanity in H. lia.
  - rewrite normalize_prefix_long by exact H.
    unfold vanity. rewrite length_firstn, vanity_nat.
    unfold len, IstanbulExtraVanity in H. lia.
Qed.

Lemma vanity_app (p x : bytes) : length p = 32%nat -> vanity (p ++ x) = p.
Proof.
  intros Hp. unfold vanity. rewrite vanity_nat, <- Hp.
  rewrite firstn_app, firstn_all, Nat.sub_diag. cbn [firstn].
  apply app_nil_r.
Qed.

Lemma skipn_vanity_app (p x : bytes) :
  length p = 32%nat -> skipn (N.to_nat IstanbulExtraVanity) (p ++ x) = x.
Proof.
  intros Hp. rewrite vanity_nat, <- Hp.
  rewrite skipn_app, skipn_all, Nat.sub_diag. reflexivity.
Qed.

Lemma normalize_prefix_app (p x : bytes) :
  length p = 32%nat -> normalize_prefix (p ++ x) = p.
Proof.
  intros Hp. rewrite normalize_prefix_long.
  - now apply vanity_app.
  - rewrite len_app. unfold len, IstanbulExtraVanity. lia.
Qed.

(** The field [putIbftExtra] writes. *)
Lemma putIbftExtra_eq (h : Header) (r : IstanbulExtra) :
  putIbftExtra h r
  = (mkHeader (normalize_prefix (ExtraData h) ++ MarshalRLPTo r []), None).
Proof.
  unfold putIbftExtra, MarshalRLPTo, types.MarshalRLPTo.
  fold (normalize_prefix (ExtraData h)).
  rewrite MarshalTo_app. reflexivity.
Qed.

Lemma getIbftExtra_long (h : Header) :
  IstanbulExtraVanity <= len (ExtraData h) ->
  getIbftExtra h
  = UnmarshalRLP (skipn (N.to_nat IstanbulExtraVanity) (ExtraData h)).
Proof.
  intros Hle. unfold getIbftExtra.
  destruct (N.ltb_spec (len (ExtraData h)) IstanbulExtraVanity); [lia|].
  now destruct (UnmarshalRLP _).
Qed.

(** Reading a header that [putIbftExtra] wrote decodes the record it
    wrote. *)
Lemma getIbftExtra_put (h : Header) (r : IstanbulExtra) :
  getIbftExtra (fst (putIbftExtra h r)) = UnmarshalRLP (MarshalRLPTo r []).
Proof.
  rewrite putIbftExtra_eq. cbn [fst].
  rewrite getIbftExtra_long.
  - cbn [ExtraData].
    now rewrite skipn_vanity_app by apply length_normalize_prefix.
  - cbn [ExtraData]. rewrite len_app. unfold len at 1.
    rewrite length_normalize_prefix. unfold IstanbulExtraVanity. lia.
Qed.

Lemma go_slice_app_r (p x : bytes) : go_slice (p ++ x) -> go_slice x.
Proof.
  unfold go_slice. rewrite len_app. lia.
Qed.

Lemma getIbftExtra_put_ok (h : Header) (r : IstanbulExtra) :
  Forall wf_Address (Validators r) ->
  emptySeals (CommittedSeal r) = [] ->
  go_slice (ExtraData (fst (putIbftExtra h r))) ->
  getIbftExtra (fst (putIbftExtra h r)) = Ok r.
Proof.
  intros Hv He Hs. rewrite getIbftExtra_put.
  rewrite putIbftExtra_eq in Hs. cbn [fst ExtraData] in Hs.
  apply go_slice_app_r in Hs.
  rewrite <- (app_nil_r (MarshalRLPTo r [])).
  now apply UnmarshalRLP_MarshalRLPTo_ok.
Qed.

(** What the decoder accepts as validators. *)
Lemma getAddrs_ok (vals : list Value) (vs : list Address) :
  getAddrs vals = Ok vs -> vals = map VBytes vs /\ Forall wf_Address vs.
Proof.
  revert vs. induction vals as [|val vals IH]; intros vs; cbn [getAddrs].
  - intros [= <-]. split; [reflexivity | constructor].
  - unfold GetAddr, GetBytes.
    destruct val as [a l | b | | ]; try discriminate.
    destruct (N.eqb_spec (len b) 20) as [E|E]; cbn [negb]; [|discriminate].
    destruct (getAddrs vals) as [l|e]; [|discriminate].
    intros [= <-]. destruct (IH l eq_refl) as [-> Hl].
    cbn [firstn app map]. split; [reflexivity|]. now constructor.
Qed.

(** The loops of the decoder pass the errors of the wire codec on. *)
Lemma getAddrs_err (vals : list Value) (e : ibft_error) :
  getAddrs vals = Err e -> exists w, e = ErrWire w.
Proof.
  revert e. induction vals as [|x vals IH]; intros e; cbn [getAddrs];
    [discriminate|].
  destruct (GetAddr x ZeroAddress) as [a|w]; [|intros [= <-]; now exists w].
  destruct (getAddrs vals) as [l|e']; [discriminate|].
  intros [= <-]. now apply IH.
Qed.

Lemma getSeals_err (vals : list Value) (e : ibft_error) :
  getSeals vals = Err e -> exists w, e = ErrWire w.
Proof.
  revert e. induction vals as [|x vals IH]; intros e; cbn [getSeals];
    [discriminate|].
  destruct (GetBytes x [] []) as [a|w]; [|intros [= <-]; now exists w].
  destruct (getSeals vals) as [l|e']; [discriminate|].
  intros [= <-]. now apply IH.
Qed.

Lemma UnmarshalRLPFrom_wf (v : Value) (r : IstanbulExtra) :
  UnmarshalRLPFrom v = Ok r -> Forall wf_Address (Validators r).
Proof.
  unfold UnmarshalRLPFrom.
  destruct (GetElems v) as [[|e0 [|e1 [|e2 [|e3 es]]]]|]; try discriminate.
  destruct (GetElems e0) as [vals|]; [|discriminate].
  destruct (getAddrs vals) as [vs|] eqn:E; [|discriminate].
  destruct (GetBytes e1 [] []); [|discriminate].
  destruct (GetElems e2) as [vals2|]; [|discriminate].
  destruct (getSeals vals2); [|discriminate].
  intros [= <-]. cbn [Validators]. now apply getAddrs_ok in E.
Qed.

Lemma getIbftExtra_wf (h : Header) (r : IstanbulExtra) :
  getIbftExtra h = Ok r -> Forall wf_Address (Validators r).
Proof.
  unfold getIbftExtra.
  destruct (len (ExtraData h) <? IstanbulExtraVanity); [discriminate|].
  unfold UnmarshalRLP, UnmarshalRlp.
  destruct (Parse _) as [v|]; [|discriminate].
  destruct (UnmarshalRLPFrom v) as [r'|] eqn:E; [|discriminate].
  intros [= <-]. now apply UnmarshalRLPFrom_wf in E.
Qed.

(** What the decoder refuses as validators. *)
Lemma getAddrs_not_addr (vals : list Value) :
  forallb isAddr vals = false ->
  exists err, getAddrs vals = Err err /\ InvalidValidatorEncoding err = true.
Proof.
  induction vals as [|x vals IH]; cbn [forallb getAddrs]; [discriminate|].
  destruct (isAddr x) eqn:Ex; cbn [andb].
  - intros H. destruct (IH H) as (err & -> & Herr).
    destruct x as [a l | b | | ]; try discriminate. cbn [isAddr] in Ex.
    unfold GetAddr, GetBytes. rewrite Ex. cbn [negb]. now exists err.
  - intros _. destruct x as [a l | b | | ]; unfold GetAddr, GetBytes;
      try (exists (ErrWire ErrNoBytes); now split).
    cbn [isAddr] in Ex. rewrite Ex. cbn [negb].
    exists (ErrWire (ErrBadLength 20 (len b))). split; [reflexivity|].
    cbn [InvalidValidatorEncoding]. now rewrite Ex.
Qed.

Lemma getAddrs_bad_length (pre : list Address) (b : bytes) (post : list Value) :
  Forall wf_Address pre -> len b <> 20 ->
  getAddrs (map VBytes pre ++ VBytes b :: post)
  = Err (ErrWire (ErrBadLength 20 (len b))).
Proof.
  intros Hpre Hb. induction Hpre as [|a pre Ha _ IH]; cbn [map app getAddrs].
  - unfold GetAddr, GetBytes.
    now destruct (N.eqb_spec (len b) 20) as [E|_]; [contradiction Hb|].
  - unfold GetAddr at 1. unfold GetBytes.
    unfold wf_Address, AddressLength in Ha. rewrite Ha. cbn [N.eqb negb].
    rewrite Pos.eqb_refl. cbn [negb]. now rewrite IH.
Qed.

End header_facts.

(** ** Canonicalization *)

Module canonical_facts.
Import fastrlp_facts fastrlp_roundtrip ibft_facts header_facts.

Lemma getIbftExtra_ok_long (h : Header) (r : IstanbulExtra) :
  getIbftExtra h = Ok r -> IstanbulExtraVanity <= len (ExtraData h).
Proof.
  unfold getIbftExtra.
  destruct (N.ltb_spec (len (ExtraData h)) IstanbulExtraVanity);
    [discriminate | auto].
Qed.

(** The header [filterIbftExtraForHash] leaves behind. *)
Lemma filterIbftExtraForHash_eq (h : Header) (r : IstanbulExtra) :
  getIbftExtra h = Ok r ->
  filterIbftExtraForHash h
  = (mkHeader (vanity (ExtraData h)
               ++ MarshalRLPTo (mkIstanbulExtra (Validators r) [] []) []),
     None).
Proof.
  intros Hr. unfold filterIbftExtraForHash, initIbftExtra. rewrite Hr.
  rewrite putIbftExtra_eq, normalize_prefix_long; [reflexivity|].
  now apply getIbftExtra_ok_long in Hr.
Qed.

Lemma filterIbftExtraForHash_ok (h h1 : Header) :
  filterIbftExtraForHash h = (h1, None) -> exists r, getIbftExtra h = Ok r.
Proof.
  unfold filterIbftExtraForHash.
  destruct (getIbftExtra h) as [r|e]; [now exists r | discriminate].
Qed.

Lemma length_vanity (extra : bytes) :
  IstanbulExtraVanity <= len extra -> length (vanity extra) = 32%nat.
Proof.
  intros H. unfold vanity. rewrite length_firstn, vanity_nat.
  unfold len, IstanbulExtraVanity in H. lia.
Qed.

(** Reading back the field of a header that holds an encoded record. *)
Lemma getIbftExtra_encoded (p : bytes) (r : IstanbulExtra) :
  length p = 32%nat ->
  Forall wf_Address (Validators r) ->
  emptySeals (CommittedSeal r) = [] ->
  go_slice (p ++ MarshalRLPTo r []) ->
  getIbftExtra (mkHeader (p ++ MarshalRLPTo r [])) = Ok r.
Proof.
  intros Hp Hv He Hs. rewrite getIbftExtra_long.
  - cbn [ExtraData]. rewrite skipn_vanity_app by exact Hp.
    rewrite <- (app_nil_r (MarshalRLPTo r [])).
    apply UnmarshalRLP_MarshalRLPTo_ok; try assumption.
    now apply go_slice_app_r in Hs.
  - cbn [ExtraData]. rewrite len_app. unfold len at 1. rewrite Hp.
    unfold IstanbulExtraVanity. lia.
Qed.

Lemma getIbftExtra_encoded_empty_entry (p : bytes) (r : IstanbulExtra) :
  length p = 32%nat ->
  emptySeals (CommittedSeal r) <> [] ->
  go_slice (p ++ MarshalRLPTo r []) ->
  getIbftExtra (mkHeader (p ++ MarshalRLPTo r []))
  = Err (ErrNotEnoughElements (3 + len (emptySeals (CommittedSeal r)))).
Proof.
  intros Hp He Hs. rewrite getIbftExtra_long.
  - cbn [ExtraData]. rewrite skipn_vanity_app by exact Hp.
    rewrite <- (app_nil_r (MarshalRLPTo r [])).
    apply UnmarshalRLP_MarshalRLPTo_empty_entry; try assumption.
    now apply go_slice_app_r in Hs.
  - cbn [ExtraData]. rewrite len_app. unfold len at 1. rewrite Hp.
    unfold IstanbulExtraVanity. lia.
Qed.

(** Canonicalizing twice is canonicalizing once. *)
Lemma filterIbftExtraForHash_idempotent (h h1 : Header) :
  filterIbftExtraForHash h = (h1, None) ->
  go_slice (ExtraData h1) ->
  filterIbftExtraForHash h1 = (h1, None).
Proof.
  intros Hf Hs.
  destruct (filterIbftExtraForHash_ok h h1 Hf) as [r Hr].
  rewrite (filterIbftExtraForHash_eq h r Hr) in Hf.
  injection Hf as <-. cbn [ExtraData] in Hs.
  pose proof (length_vanity _ (getIbftExtra_ok_long h r Hr)) as Hp.
  set (p := vanity (ExtraData h)) in *.
  set (r0 := mkIstanbulExtra (Validators r) [] []) in *.
  assert (Hr0 : getIbftExtra (mkHeader (p ++ MarshalRLPTo r0 [])) = Ok r0).
  { apply getIbftExtra_encoded; try assumption; [|reflexivity].
    now apply getIbftExtra_wf in Hr. }
  rewrite (filterIbftExtraForHash_eq _ r0 Hr0). cbn [ExtraData].
  now rewrite vanity_app by exact Hp.
Qed.

(** The headers of the scenario: a fresh record for [vs], then a seal,
    then committed seals. *)
Lemma pack_after_put (h : Header) (r : IstanbulExtra)
    (updateFn : IstanbulExtra -> IstanbulExtra) :
  Forall wf_Address (Validators r) ->
  emptySeals (CommittedSeal r) = [] ->
  go_slice (ExtraData (fst (putIbftExtra h r))) ->
  packFieldIntoIbftExtra (fst (putIbftExtra h r)) updateFn
  = (mkHeader (normalize_prefix (ExtraData h) ++ MarshalRLPTo (updateFn r) []),
     None).
Proof.
  intros Hv He Hs. unfold packFieldIntoIbftExtra.
  rewrite getIbftExtra_put_ok by assumption.
  rewrite !putIbftExtra_eq. cbn [fst ExtraData].
  now rewrite normalize_prefix_app by apply length_normalize_prefix.
Qed.

Lemma scenario_headers (e : bytes) (vs : list Address) (sP : bytes)
    (seals : list bytes) :
  Forall wf_Address vs ->
  let h1 := fst (initIbftExtra (mkHeader e) vs) in
  let h2 := fst (packSealIntoIbftExtra h1 sP) in
  let h3 := fst (packCommittedSealIntoIbftExtra h2 seals) in
  go_slice (ExtraData h1) -> go_slice (ExtraData h2) ->
  h1 = mkHeader (normalize_prefix e
                 ++ MarshalRLPTo (mkIstanbulExtra vs [] []) [])
  /\ h3 = mkHeader (normalize_prefix e
                    ++ MarshalRLPTo (mkIstanbulExtra vs sP seals) []).
Proof.
  intros Hv h1 h2 h3 Hs1 Hs2.
  assert (E1 : h1 = mkHeader (normalize_prefix e
                              ++ MarshalRLPTo (mkIstanbulExtra vs [] []) [])).
  { unfold h1, initIbftExtra. now rewrite putIbftExtra_eq. }
  assert (E2 : h2 = mkHeader (normalize_prefix e
                              ++ MarshalRLPTo (mkIstanbulExtra vs sP []) [])).
  { unfold h2, packSealIntoIbftExtra. unfold h1, initIbftExtra in *.
    rewrite pack_after_put; try assumption; reflexivity. }
  split; [exact E1|].
  unfold h3, packCommittedSealIntoIbftExtra.
  assert (E2' : h2 = fst (putIbftExtra (mkHeader e) (mkIstanbulExtra vs sP []))).
  { rewrite E2. now rewrite putIbftExtra_eq. }
  rewrite E2' in *.
  rewrite pack_after_put; try assumption; reflexivity.
Qed.

Lemma fullLen_address (a : Address) :
  wf_Address a -> fullLen (VBytes a) = 21.
Proof.
  unfold wf_Address, AddressLength. intros Ha. cbn [fullLen].
  destruct a as [|b0 [|b1 a]]; try (cbn in Ha; discriminate).
  rewrite Ha. reflexivity.
Qed.

(** The field of a fresh header for three validators is 101 bytes long. *)
Lemma len_init3 (e : bytes) (A B C : Address) :
  wf_Address A -> wf_Address B -> wf_Address C ->
  len (ExtraData (fst (initIbftExtra (mkHeader e) [A; B; C]))) = 101.
Proof.
  intros HA HB HC. unfold initIbftExtra. rewrite putIbftExtra_eq.
  cbn [fst ExtraData]. rewrite len_app. unfold len at 1.
  rewrite length_normalize_prefix.
  unfold MarshalRLPTo, types.MarshalRLPTo.
  fold (enc (MarshalRLPWith (mkIstanbulExtra [A; B; C] [] []))).
  rewrite len_enc_consistent by apply consistent_MarshalRLPWith.
  rewrite MarshalRLPWith_eq. unfold elemsOf, bytesArray, sealValue.
  cbn [Validators Seal CommittedSeal map app].
  assert (H63 : sumLen [VBytes A; VBytes B; VBytes C] = 63).
  { rewrite !sumLen_cons, !fullLen_address by assumption. reflexivity. }
  rewrite H63. reflexivity.
Qed.

(** The scenario, for any validators and committed seals: canonicalizing
    the header that was initialized, sealed and given committed seals gives
    the freshly initialized header back when it succeeds, and succeeds when
    no committed seal is empty. *)
Lemma scenario_canonical (e : bytes) (vs : list Address) (sP : bytes)
    (seals : list bytes) :
  Forall wf_Address vs ->
  let h1 := fst (initIbftExtra (mkHeader e) vs) in
  let h2 := fst (packSealIntoIbftExtra h1 sP) in
  let h3 := fst (packCommittedSealIntoIbftExtra h2 seals) in
  go_slice (ExtraData h1) -> go_slice (ExtraData h2) ->
  go_slice (ExtraData h3) ->
  (forall h4, filterIbftExtraForHash h3 = (h4, None) -> h4 = h1)
  /\ (emptySeals seals = [] -> filterIbftExtraForHash h3 = (h1, None)).
Proof.
  intros Hv. cbv zeta. intros Hs1 Hs2 Hs3.
  destruct (scenario_headers e vs sP seals Hv Hs1 Hs2) as [E1 E3].
  rewrite E3 in *. rewrite E1 in *. clear E1 E3 Hs1 Hs2.
  cbn [ExtraData] in Hs3.
  pose proof (length_normalize_prefix e) as Hp.
  set (p := normalize_prefix e) in *.
  set (r3 := mkIstanbulExtra vs sP seals) in *.
  assert (Hok : emptySeals seals = [] ->
                filterIbftExtraForHash (mkHeader (p ++ MarshalRLPTo r3 []))
                = (mkHeader (p ++ MarshalRLPTo (mkIstanbulExtra vs [] []) []),
                   None)).
  { intros He.
    assert (Hr3 : getIbftExtra (mkHeader (p ++ MarshalRLPTo r3 [])) = Ok r3)
      by (apply getIbftExtra_encoded; assumption).
    rewrite (filterIbftExtraForHash_eq _ r3 Hr3).
    cbn [ExtraData]. now rewrite vanity_app by exact Hp. }
  split; [|exact Hok].
  intros h4 Hf.
  destruct (emptySeals seals) as [|x xs] eqn:He.
  - rewrite (Hok eq_refl) in Hf. now injection Hf.
  - exfalso. unfold filterIbftExtraForHash in Hf.
    rewrite (getIbftExtra_encoded_empty_entry p r3) in Hf;
      try assumption; try discriminate.
    cbn [CommittedSeal r3]. rewrite He. discriminate.
Qed.

End canonical_facts.

(** ** Reading back what was written *)

Module readback_facts.
Import fastrlp_facts fastrlp_roundtrip ibft_facts header_facts canonical_facts.

Lemma unpacked_ok (h : Header) (r : IstanbulExtra) :
  getIbftExtra h = Ok r ->
  unpacked h = (Ok (Validators r), Ok (Seal r), Ok (CommittedSeal r)).
Proof.
  intros Hr. unfold unpacked, unpackValidatorsFromIbftExtra,
    unpackSealFromIbftExtra, unpackCommittedSealFromIbftExtra.
  now rewrite Hr.
Qed.

(** The law of the read-modify-write cycle: the header it leaves behind
    holds the updated record. *)
Lemma packFieldIntoIbftExtra_readback (h : Header) (r : IstanbulExtra)
    (updateFn : IstanbulExtra -> IstanbulExtra) :
  getIbftExtra h = Ok r ->
  Forall wf_Address (Validators (updateFn r)) ->
  emptySeals (CommittedSeal (updateFn r)) = [] ->
  go_slice (ExtraData (fst (packFieldIntoIbftExtra h updateFn))) ->
  packFieldIntoIbftExtra h updateFn
  = (fst (putIbftExtra h (updateFn r)), None)
  /\ getIbftExtra (fst (packFieldIntoIbftExtra h updateFn)) = Ok (updateFn r).
Proof.
  intros Hr Hv He. unfold packFieldIntoIbftExtra. rewrite Hr. intros Hs.
  split; [now rewrite putIbftExtra_eq|].
  now apply getIbftExtra_put_ok.
Qed.

Lemma packFieldIntoIbftExtra_ok (h : Header) (r : IstanbulExtra)
    (updateFn : IstanbulExtra -> IstanbulExtra) :
  getIbftExtra h = Ok r ->
  packFieldIntoIbftExtra h updateFn
  = (mkHeader (vanity (ExtraData h) ++ MarshalRLPTo (updateFn r) []), None).
Proof.
  intros Hr. unfold packFieldIntoIbftExtra. rewrite Hr.
  rewrite putIbftExtra_eq, normalize_prefix_long; [reflexivity|].
  now apply getIbftExtra_ok_long in Hr.
Qed.

Lemma getSeals_ok (vals : list Value) (cs : list bytes) :
  getSeals vals = Ok cs -> vals = map VBytes cs.
Proof.
  revert cs. induction vals as [|val vals IH]; intros cs; cbn [getSeals].
  - now intros [= <-].
  - destruct val as [a l | b | | ]; cbn [GetBytes]; try discriminate.
    destruct (getSeals vals) as [l|e]; [|discriminate].
    intros [= <-]. cbn [firstn app map]. now rewrite (IH l eq_refl).
Qed.

Lemma getSeals_not_bytes (pre : list bytes) (x : Value) (post : list Value) :
  Type_of x <> TypeBytes ->
  getSeals (map VBytes pre ++ x :: post) = Err (ErrWire ErrNoBytes).
Proof.
  intros Hx. induction pre as [|a pre IH]; cbn [map app getSeals].
  - destruct x as [a l | b | | ]; try reflexivity. now contradiction Hx.
  - cbn [GetBytes]. now rewrite IH.
Qed.

Lemma len_MarshalRLPTo_pos (r : IstanbulExtra) : 1 <= len (MarshalRLPTo r []).
Proof.
  unfold MarshalRLPTo, types.MarshalRLPTo. fold (enc (MarshalRLPWith r)).
  rewrite len_enc_consistent by apply consistent_MarshalRLPWith.
  apply fullLen_pos.
Qed.

End readback_facts.

(** * The claims of the specification *)

Import fastrlp_facts fastrlp_roundtrip fastrlp_total ibft_facts header_facts
  canonical_facts.

(** ** The record codec *)

(** C1 (round trip), at a record with an empty entry among its committed
    seals: validators [[addrA]], seal [[0x05]], committed seals
    [[]; [0x07]].  Its encoding is not decoded to the record: the decoder
    finds four top-level elements and fails.  (The round trip of the
    records with no empty committed seal is
    [UnmarshalRLP_MarshalRLPTo_ok].) *)
Theorem C1_roundtrip_empty_entry :
  Forall wf_Address (Validators extraEmptyEntry)
  /\ UnmarshalRLP (MarshalRLPTo extraEmptyEntry [])
     = Err (ErrNotEnoughElements 4).
Proof.
  split.
  - repeat constructor.
  - vm_compute. reflexivity.
Qed.

(** C2 (three top-level elements), at the same record: the value the
    encoder builds has four top-level elements, the null value of the empty
    entry being the third of them and not an element of the list of
    committed seals, which is the fourth and holds one entry.  (The number
    of top-level elements of any record is [len_topElems].) *)
Theorem C2_encoder_top_level_elements :
  topElems (MarshalRLPWith extraEmptyEntry)
  = [VArray [VBytes addrA] 21; VBytes [x05]; VNull; VArray [VBytes [x07]] 1]
  /\ len (topElems (MarshalRLPWith extraEmptyEntry)) = 4.
Proof.
  split; vm_compute; reflexivity.
Qed.

(** ** Canonicalization and vanity *)

(** C3 (canonicalization), at the scenario with an empty first committed
    seal: the header with the field of 40 bytes [0x2a] is initialized with
    the validators [[addrA; addrB; addrC]] (this is [headerABC]), given the
    seal [sigP] and then the committed seals [[]; sig2].  Each of the three
    calls returns no error, but [filterIbftExtraForHash] then fails with
    the "not enough elements" error (four found) and leaves the header as
    it is, with its seal and committed seals: its field is not the field of
    the freshly initialized header. *)
Theorem C3_scenario_empty_signature :
  snd (initIbftExtra (mkHeader (repeat x2a 40)) [addrA; addrB; addrC]) = None
  /\ snd (packSealIntoIbftExtra headerABC sigP) = None
  /\ snd (packCommittedSealIntoIbftExtra
            (fst (packSealIntoIbftExtra headerABC sigP)) [[]; sig2]) = None
  /\ filterIbftExtraForHash headerEmptySig
     = (headerEmptySig, Some (ErrNotEnoughElements 4))
  /\ ExtraData headerEmptySig <> ExtraData headerABC
  /\ ExtraData headerEmptySig
     = vanity (ExtraData headerABC)
       ++ MarshalRLPTo
            (mkIstanbulExtra [addrA; addrB; addrC] sigP [[]; sig2]) [].
Proof.
  repeat split; try (vm_compute; reflexivity).
  vm_compute. discriminate.
Qed.

(** C4 (vanity preservation under mutation).  When the field of a header
    is at least 32 bytes long, its first 32 bytes are the same after every
    call of a sequence of [packSealIntoIbftExtra] and
    [packCommittedSealIntoIbftExtra] calls, whether a call succeeds (and
    rewrites the field) or fails (and leaves it). *)
Theorem C4_vanity_preserved (h : Header) (calls : list call) :
  IstanbulExtraVanity <= len (ExtraData h) ->
  Forall (fun h' => vanity (ExtraData h') = vanity (ExtraData h)
                    /\ IstanbulExtraVanity <= len (ExtraData h'))
    (headers_after h calls).
Proof.
  revert h. induction calls as [|c calls IH]; intros h Hle; cbn [headers_after].
  - constructor.
  - assert (Hstep : vanity (ExtraData (fst (do_call h c))) = vanity (ExtraData h)
                    /\ IstanbulExtraVanity <= len (ExtraData (fst (do_call h c)))).
    { assert (Hpack : forall f,
        vanity (ExtraData (fst (packFieldIntoIbftExtra h f)))
        = vanity (ExtraData h)
        /\ IstanbulExtraVanity
           <= len (ExtraData (fst (packFieldIntoIbftExtra h f)))).
      { intros f. unfold packFieldIntoIbftExtra.
        destruct (getIbftExtra h) as [extra|err]; cbn [fst]; [|now split].
        rewrite putIbftExtra_eq. cbn [fst ExtraData]. split.
        - rewrite vanity_app by apply length_normalize_prefix.
          now apply normalize_prefix_long.
        - rewrite len_app. unfold len at 1.
          rewrite length_normalize_prefix. unfold IstanbulExtraVanity. lia. }
      destruct c; apply Hpack. }
    destruct Hstep as [Hv Hl]. constructor; [now split|].
    specialize (IH _ Hl). eapply Forall_impl; [|exact IH].
    cbn beta. intros h' [H1 H2]. split; [congruence | assumption].
Qed.

Lemma C4_vanity_preserved_witness :
  Forall (fun h' => vanity (ExtraData h') = vanity (ExtraData headerABC)
                    /\ IstanbulExtraVanity <= len (ExtraData h'))
    (headers_after headerABC
       [set_seal sigP; set_committed_seals [sig1; sig2]; set_seal []]).
Proof.
  apply (C4_vanity_preserved headerABC).
  vm_compute. discriminate.
Defined.

(** C5 (vanity normalization).  The first 32 bytes of the field
    [putIbftExtra] writes come from the field it finds alone: a field
    shorter than 32 bytes is padded on the right with zero bytes, of a field
    of 32 bytes or more the first 32 bytes are kept; they are the same
    whatever record is written, and two fields that agree on their first 32
    bytes give the same result. *)
Theorem C5_putIbftExtra_vanity (h : Header) (r : IstanbulExtra) :
  (len (ExtraData h) < IstanbulExtraVanity ->
   vanity (ExtraData (fst (putIbftExtra h r)))
   = ExtraData h ++ repeat x00 (32 - length (ExtraData h)))
  /\ (IstanbulExtraVanity <= len (ExtraData h) ->
      vanity (ExtraData (fst (putIbftExtra h r))) = vanity (ExtraData h))
  /\ (forall r',
        vanity (ExtraData (fst (putIbftExtra h r')))
        = vanity (ExtraData (fst (putIbftExtra h r))))
  /\ (forall h',
        IstanbulExtraVanity <= len (ExtraData h) ->
        IstanbulExtraVanity <= len (ExtraData h') ->
        vanity (ExtraData h') = vanity (ExtraData h) ->
        putIbftExtra h' r = putIbftExtra h r).
Proof.
  assert (Hv : forall r0, vanity (ExtraData (fst (putIbftExtra h r0)))
                          = normalize_prefix (ExtraData h)).
  { intros r0. rewrite putIbftExtra_eq. cbn [fst ExtraData].
    apply vanity_app, length_normalize_prefix. }
  repeat split.
  - intros Hlt. rewrite Hv. now apply normalize_prefix_short.
  - intros Hle. rewrite Hv. now apply normalize_prefix_long.
  - intros r'. now rewrite !Hv.
  - intros h' Hh Hh' Heq. rewrite !putIbftExtra_eq.
    rewrite !normalize_prefix_long by assumption. now rewrite Heq.
Qed.

Lemma C5_putIbftExtra_vanity_witness :
  vanity (ExtraData (fst (putIbftExtra header31 extraEmptyEntry)))
  = repeat x2a 31 ++ [x00].
Proof.
  apply (proj1 (C5_putIbftExtra_vanity header31 extraEmptyEntry)).
  vm_compute. reflexivity.
Defined.

(** ** Errors *)

(** C6 (update is atomic on failure).  When reading the header fails,
    [packFieldIntoIbftExtra] returns the error of the read as it is and the
    header is the one it was given. *)
Theorem C6_packFieldIntoIbftExtra_atomic (h : Header)
    (updateFn : IstanbulExtra -> IstanbulExtra) (err : ibft_error) :
  getIbftExtra h = Err err ->
  packFieldIntoIbftExtra h updateFn = (h, Some err).
Proof.
  intros H. unfold packFieldIntoIbftExtra. now rewrite H.
Qed.

Lemma C6_packFieldIntoIbftExtra_atomic_witness :
  packFieldIntoIbftExtra header31
    (fun extra => mkIstanbulExtra (Validators extra) sigP (CommittedSeal extra))
  = (header31, Some (ErrWrongExtraSize 32 31)).
Proof.
  apply (C6_packFieldIntoIbftExtra_atomic header31).
  vm_compute. reflexivity.
Defined.

(** C7 (extension too short).  [getIbftExtra] fails with the "wrong extra
    size" error on every header whose field is shorter than 32 bytes, a
    field of 31 bytes among them, and with no such error on a header whose
    field is 32 bytes or longer. *)
Theorem C7_getIbftExtra_too_short (h : Header) :
  (len (ExtraData h) < IstanbulExtraVanity ->
   getIbftExtra h
   = Err (ErrWrongExtraSize IstanbulExtraVanity (len (ExtraData h))))
  /\ (len (ExtraData h) = 31 ->
      getIbftExtra h = Err (ErrWrongExtraSize 32 31))
  /\ (IstanbulExtraVanity <= len (ExtraData h) ->
      forall err, getIbftExtra h = Err err -> ExtensionTooShort err = false).
Proof.
  repeat split.
  - intros Hlt. unfold getIbftExtra.
    now destruct (N.ltb_spec (len (ExtraData h)) IstanbulExtraVanity); [|lia].
  - intros E. unfold getIbftExtra. rewrite E. reflexivity.
  - intros Hle err. rewrite getIbftExtra_long by exact Hle.
    unfold UnmarshalRLP, UnmarshalRlp.
    destruct (Parse _) as [v|e]; [|now intros [= <-]].
    unfold UnmarshalRLPFrom.
    destruct (GetElems v) as [[|e0 [|e1 [|e2 [|e3 es]]]]|];
      try (intros [= <-]; reflexivity).
    destruct (GetElems e0); [|intros [= <-]; reflexivity].
    destruct (getAddrs a) as [vs|e'] eqn:Ea.
    + destruct (GetBytes e1 [] []); [|intros [= <-]; reflexivity].
      destruct (GetElems e2) as [vals|]; [|intros [= <-]; reflexivity].
      destruct (getSeals vals) as [cs|e'] eqn:Es; [discriminate|].
      intros [= <-]. now destruct (getSeals_err _ _ Es) as [w ->].
    + intros [= <-]. now destruct (getAddrs_err _ _ Ea) as [w ->].
Qed.

Lemma C7_getIbftExtra_too_short_witness :
  getIbftExtra header31 = Err (ErrWrongExtraSize 32 31).
Proof.
  apply (proj1 (C7_getIbftExtra_too_short header31)).
  vm_compute. reflexivity.
Defined.

(** C8 (malformed record).  A payload that parses to a list of other than
    three elements is refused with the "not enough elements" error, which
    reports the number found, whatever the elements are: they are not
    looked at.  The payloads [[0xC2; 0xC0; 0x80]] and
    [[0xC4; 0xC0; 0x80; 0xC0; 0x80]], lists of two and of four elements,
    are such payloads. *)
Theorem C8_wrong_element_count (payload : bytes) (elems : list Value) (l : N) :
  Parse payload = POk (VArray elems l) ->
  len elems <> 3 ->
  UnmarshalRLP payload = Err (ErrNotEnoughElements (len elems))
  /\ UnmarshalRLPFrom (VArray elems l) = Err (ErrNotEnoughElements (len elems))
  /\ MalformedRecord (ErrNotEnoughElements (len elems)) = true.
Proof.
  intros Hp Hn.
  assert (H : UnmarshalRLPFrom (VArray elems l)
              = Err (ErrNotEnoughElements (len elems))).
  { unfold UnmarshalRLPFrom. cbn [GetElems].
    destruct elems as [|e0 [|e1 [|e2 [|e3 es]]]]; try reflexivity.
    now contradiction Hn. }
  repeat split; try assumption.
  unfold UnmarshalRLP, UnmarshalRlp. now rewrite Hp.
Qed.

Lemma C8_wrong_element_count_witness :
  (UnmarshalRLP [xc2; xc0; x80] = Err (ErrNotEnoughElements 2)
   /\ UnmarshalRLPFrom (VArray [VArray [] 0; VBytes []] 2)
      = Err (ErrNotEnoughElements 2)
   /\ MalformedRecord (ErrNotEnoughElements 2) = true)
  /\ (UnmarshalRLP [xc4; xc0; x80; xc0; x80] = Err (ErrNotEnoughElements 4)
      /\ UnmarshalRLPFrom
           (VArray [VArray [] 0; VBytes []; VArray [] 0; VBytes []] 4)
         = Err (ErrNotEnoughElements 4)
      /\ MalformedRecord (ErrNotEnoughElements 4) = true).
Proof.
  split.
  - apply (C8_wrong_element_count [xc2; xc0; x80]
             [VArray [] 0; VBytes []] 2); vm_compute; [reflexivity|discriminate].
  - apply (C8_wrong_element_count [xc4; xc0; x80; xc0; x80]
             [VArray [] 0; VBytes []; VArray [] 0; VBytes []] 4);
      vm_compute; [reflexivity|discriminate].
Defined.

(** C9 (validators).  The first element of the record must be a list,
    else the decoder fails with its "mismatch of RLP type for Validators"
    error; every entry of the list must be a byte string of exactly 20
    bytes, else the decoder fails with the error of [GetAddr] for the first
    entry that is not, "bad length, expected 20" when it is a byte string of
    19, 21 or any other number of bytes; and when the decoder succeeds the
    validators are the entries of the list, in their order and as they
    are. *)
Theorem C9_validators_decoding (e0 e1 e2 : Value) (l : N) :
  (Type_of e0 <> TypeArray ->
   UnmarshalRLPFrom (VArray [e0; e1; e2] l)
   = Err (ErrValidatorsType (Type_of e0))
   /\ InvalidValidatorEncoding (ErrValidatorsType (Type_of e0)) = true)
  /\ (forall vals l0,
        e0 = VArray vals l0 -> forallb isAddr vals = false ->
        exists err,
          UnmarshalRLPFrom (VArray [e0; e1; e2] l) = Err err
          /\ InvalidValidatorEncoding err = true)
  /\ (forall pre b post l0,
        e0 = VArray (map VBytes pre ++ VBytes b :: post) l0 ->
        Forall wf_Address pre -> len b <> 20 ->
        UnmarshalRLPFrom (VArray [e0; e1; e2] l)
        = Err (ErrWire (ErrBadLength 20 (len b))))
  /\ (forall r,
        UnmarshalRLPFrom (VArray [e0; e1; e2] l) = Ok r ->
        exists l0, e0 = VArray (map VBytes (Validators r)) l0
                   /\ Forall wf_Address (Validators r)).
Proof.
  split; [|split; [|split]].
  - intros Ht. split; [|reflexivity]. unfold UnmarshalRLPFrom. cbn [GetElems].
    destruct e0 as [a l0 | b | | ]; try reflexivity. now contradiction Ht.
  - intros vals l0 -> Hbad.
    destruct (getAddrs_not_addr vals Hbad) as (err & Herr & Hk).
    exists err. split; [|exact Hk].
    unfold UnmarshalRLPFrom. cbn [GetElems]. now rewrite Herr.
  - intros pre b post l0 -> Hpre Hb.
    unfold UnmarshalRLPFrom. cbn [GetElems].
    now rewrite getAddrs_bad_length.
  - intros r. unfold UnmarshalRLPFrom.
    destruct e0 as [vals l0 | b | | ]; cbn [GetElems]; try discriminate.
    destruct (getAddrs vals) as [vs|] eqn:E; [|discriminate].
    destruct (GetBytes e1 [] []); [|discriminate].
    destruct (GetElems e2) as [vals2|]; [|discriminate].
    destruct (getSeals vals2); [|discriminate].
    intros [= <-]. cbn [Validators]. apply getAddrs_ok in E.
    destruct E as [-> Hwf]. now exists l0.
Qed.

Lemma C9_validators_decoding_witness :
  UnmarshalRLPFrom
    (VArray [VArray [VBytes addrA; VBytes (repeat x0b 19); VBytes addrC] 62;
             VBytes []; VArray [] 0] 65)
  = Err (ErrWire (ErrBadLength 20 19))
  /\ UnmarshalRLPFrom
       (VArray [VArray [VBytes addrA; VBytes (repeat x0b 21); VBytes addrC] 64;
                VBytes []; VArray [] 0] 67)
     = Err (ErrWire (ErrBadLength 20 21)).
Proof.
  split.
  - apply (proj1 (proj2 (proj2
      (C9_validators_decoding
         (VArray [VBytes addrA; VBytes (repeat x0b 19); VBytes addrC] 62)
         (VBytes []) (VArray [] 0) 65)))
      [addrA] (repeat x0b 19) [VBytes addrC] 62).
    + reflexivity.
    + repeat constructor.
    + vm_compute. discriminate.
  - apply (proj1 (proj2 (proj2
      (C9_validators_decoding
         (VArray [VBytes addrA; VBytes (repeat x0b 21); VBytes addrC] 64)
         (VBytes []) (VArray [] 0) 67)))
      [addrA] (repeat x0b 21) [VBytes addrC] 64).
    + reflexivity.
    + repeat constructor.
    + vm_compute. discriminate.
Defined.

(** C10 (the write path does not fail).  [putIbftExtra] and
    [initIbftExtra] return no error, whatever the header and the record;
    an error of the functions that update or filter a header, or read from
    it, is the error of [getIbftExtra] on that header. *)
Theorem C10_write_path_never_fails (h : Header) (r : IstanbulExtra)
    (validators : list Address) :
  snd (putIbftExtra h r) = None
  /\ snd (initIbftExtra h validators) = None
  /\ (forall updateFn err,
        snd (packFieldIntoIbftExtra h updateFn) = Some err ->
        getIbftExtra h = Err err)
  /\ (forall seal err,
        snd (packSealIntoIbftExtra h seal) = Some err ->
        getIbftExtra h = Err err)
  /\ (forall seals err,
        snd (packCommittedSealIntoIbftExtra h seals) = Some err ->
        getIbftExtra h = Err err)
  /\ (forall err,
        snd (filterIbftExtraForHash h) = Some err -> getIbftExtra h = Err err)
  /\ (forall err,
        unpackValidatorsFromIbftExtra h = Err err -> getIbftExtra h = Err err)
  /\ (forall err,
        unpackSealFromIbftExtra h = Err err -> getIbftExtra h = Err err)
  /\ (forall err,
        unpackCommittedSealFromIbftExtra h = Err err ->
        getIbftExtra h = Err err).
Proof.
  assert (Hpack : forall updateFn err,
            snd (packFieldIntoIbftExtra h updateFn) = Some err ->
            getIbftExtra h = Err err).
  { intros f err. unfold packFieldIntoIbftExtra.
    destruct (getIbftExtra h) as [extra|e];
      [rewrite putIbftExtra_eq; discriminate|].
    now intros [= ->]. }
  split; [reflexivity|]. split; [reflexivity|].
  split; [exact Hpack|]. split; [intros seal; apply Hpack|].
  split; [intros seals; apply Hpack|].
  split; [|split; [|split]].
  - intros err. unfold filterIbftExtraForHash, initIbftExtra.
    destruct (getIbftExtra h) as [extra|e];
      [rewrite putIbftExtra_eq; discriminate|].
    now intros [= ->].
  - intros err. unfold unpackValidatorsFromIbftExtra.
    destruct (getIbftExtra h); [discriminate | now intros [= ->]].
  - intros err. unfold unpackSealFromIbftExtra.
    destruct (getIbftExtra h); [discriminate | now intros [= ->]].
  - intros err. unfold unpackCommittedSealFromIbftExtra.
    destruct (getIbftExtra h); [discriminate | now intros [= ->]].
Qed.

Lemma C10_write_path_never_fails_witness :
  getIbftExtra header31 = Err (ErrWrongExtraSize 32 31).
Proof.
  apply (proj1 (proj2 (proj2
    (C10_write_path_never_fails header31 extraEmptyEntry [addrA])))
    (fun extra => extra)).
  vm_compute. reflexivity.
Defined.

(** * Further properties of [extra.go] *)

Import readback_facts.

(** ** The record codec *)

(** X1.  The round trip of the record codec: a record whose validators are
    20 bytes each and whose committed seals are all non-empty is decoded
    from its encoding as it is, with its validators and committed seals in
    their order, whatever the seal (empty or not) and whether there are
    committed seals or none. *)
Theorem X1_record_roundtrip (i : IstanbulExtra) :
  Forall wf_Address (Validators i) ->
  emptySeals (CommittedSeal i) = [] ->
  go_slice (MarshalRLPTo i []) ->
  UnmarshalRLP (MarshalRLPTo i []) = Ok i.
Proof.
  intros Hv He Hs. rewrite <- (app_nil_r (MarshalRLPTo i [])).
  now apply UnmarshalRLP_MarshalRLPTo_ok.
Qed.

Lemma X1_record_roundtrip_witness :
  UnmarshalRLP (MarshalRLPTo extraFull []) = Ok extraFull
  /\ UnmarshalRLP (MarshalRLPTo (mkIstanbulExtra [] [] []) [])
     = Ok (mkIstanbulExtra [] [] []).
Proof.
  split.
  - apply (X1_record_roundtrip extraFull).
    + repeat constructor.
    + reflexivity.
    + vm_compute. discriminate.
  - apply (X1_record_roundtrip (mkIstanbulExtra [] [] [])).
    + constructor.
    + reflexivity.
    + vm_compute. discriminate.
Defined.

(** X2.  What [UnmarshalRLPFrom] accepts: it returns a record exactly on a
    list of three elements that are a list of byte strings of 20 bytes
    each, a byte string, and a list of byte strings; the record holds these
    byte strings as they are, of any length for the seal and the committed
    seals. *)
Theorem X2_UnmarshalRLPFrom_accepts (v : Value) (r : IstanbulExtra) :
  UnmarshalRLPFrom v = Ok r
  <-> (Forall wf_Address (Validators r)
       /\ exists l l0 l2,
            v = VArray [VArray (map VBytes (Validators r)) l0;
                        VBytes (Seal r);
                        VArray (map VBytes (CommittedSeal r)) l2] l).
Proof.
  split.
  - intros H. split; [now apply UnmarshalRLPFrom_wf in H|].
    unfold UnmarshalRLPFrom in H.
    destruct v as [elems l | | | ]; cbn [GetElems] in H; try discriminate.
    destruct elems as [|e0 [|e1 [|e2 [|e3 es]]]]; try discriminate.
    destruct e0 as [vals l0 | | | ]; cbn [GetElems] in H; try discriminate.
    destruct (getAddrs vals) as [vs|] eqn:Ea; [|discriminate].
    destruct e1 as [ | s | | ]; cbn [GetBytes] in H; try discriminate.
    destruct e2 as [vals2 l2 | | | ]; cbn [GetElems] in H; try discriminate.
    destruct (getSeals vals2) as [cs|] eqn:Es; [|discriminate].
    injection H as <-. cbn [Validators Seal CommittedSeal firstn app].
    apply getAddrs_ok in Ea. destruct Ea as [-> _].
    apply getSeals_ok in Es. subst vals2.
    now exists l, l0, l2.
  - intros (Hv & l & l0 & l2 & ->).
    unfold UnmarshalRLPFrom. cbn [GetElems GetBytes firstn app].
    rewrite getAddrs_bytes by exact Hv. rewrite getSeals_bytes.
    now destruct r.
Qed.

Lemma X2_UnmarshalRLPFrom_accepts_witness :
  UnmarshalRLPFrom
    (VArray [VArray (map VBytes [addrA; addrB]) 42; VBytes [x05];
             VArray (map VBytes [[]; [x07]]) 2] 47)
  = Ok (mkIstanbulExtra [addrA; addrB] [x05] [[]; [x07]]).
Proof.
  apply (proj2 (X2_UnmarshalRLPFrom_accepts
    (VArray [VArray (map VBytes [addrA; addrB]) 42; VBytes [x05];
             VArray (map VBytes [[]; [x07]]) 2] 47)
    (mkIstanbulExtra [addrA; addrB] [x05] [[]; [x07]]))).
  split.
  - repeat constructor.
  - now exists 47, 42, 2.
Defined.

(** X3.  The errors of [UnmarshalRLPFrom] after the validators, in the
    order of the fields: when the validators are read, a second element
    that is not a byte string gives the "failed to decode Seal" error
    whatever the third element is; with a byte string there, a third
    element that is not a list gives the "mismatch of RLP type for
    CommittedSeal" error, which reports the type of the first element (an
    array); and an entry of the third element that is not a byte string
    gives the error of [GetBytes] as it is. *)
Theorem X3_UnmarshalRLPFrom_seal_errors (vs : list Address) (l0 l : N)
    (e1 e2 : Value) :
  Forall wf_Address vs ->
  (Type_of e1 <> TypeBytes ->
   UnmarshalRLPFrom (VArray [VArray (map VBytes vs) l0; e1; e2] l)
   = Err (ErrDecodeSeal ErrNoBytes))
  /\ (Type_of e1 = TypeBytes -> Type_of e2 <> TypeArray ->
      UnmarshalRLPFrom (VArray [VArray (map VBytes vs) l0; e1; e2] l)
      = Err (ErrCommittedSealType TypeArray))
  /\ (forall pre x post l2,
        Type_of e1 = TypeBytes ->
        e2 = VArray (map VBytes pre ++ x :: post) l2 ->
        Type_of x <> TypeBytes ->
        UnmarshalRLPFrom (VArray [VArray (map VBytes vs) l0; e1; e2] l)
        = Err (ErrWire ErrNoBytes)).
Proof.
  intros Hv. unfold UnmarshalRLPFrom. cbn [GetElems].
  rewrite getAddrs_bytes by exact Hv.
  split; [|split].
  - intros H1. destruct e1; try reflexivity. now contradiction H1.
  - intros H1 H2. destruct e1; try discriminate. cbn [GetBytes Type_of].
    destruct e2; try reflexivity. now contradiction H2.
  - intros pre x post l2 H1 -> Hx. destruct e1; try discriminate.
    cbn [GetBytes GetElems]. now rewrite getSeals_not_bytes.
Qed.

Lemma X3_UnmarshalRLPFrom_seal_errors_witness :
  UnmarshalRLPFrom
    (VArray [VArray (map VBytes [addrA]) 21; VArray [] 0; VBytes [x07]] 24)
  = Err (ErrDecodeSeal ErrNoBytes).
Proof.
  apply (proj1 (X3_UnmarshalRLPFrom_seal_errors [addrA] 21 24
                  (VArray [] 0) (VBytes [x07])
                  ltac:(repeat constructor))).
  discriminate.
Defined.

(** ** Writing and reading a header *)

(** X4.  A header that was initialized reads back as the validators it was
    given, an empty seal and no committed seals. *)
Theorem X4_init_then_unpack (h : Header) (validators : list Address) :
  Forall wf_Address validators ->
  go_slice (ExtraData (fst (initIbftExtra h validators))) ->
  unpacked (fst (initIbftExtra h validators)) = (Ok validators, Ok [], Ok []).
Proof.
  intros Hv Hs. unfold initIbftExtra in *.
  now rewrite (unpacked_ok _ (mkIstanbulExtra validators [] []))
    by (now apply getIbftExtra_put_ok).
Qed.

Lemma X4_init_then_unpack_witness :
  unpacked (fst (initIbftExtra header31 [addrA; addrB; addrC]))
  = (Ok [addrA; addrB; addrC], Ok [], Ok []).
Proof.
  apply (X4_init_then_unpack header31 [addrA; addrB; addrC]).
  - repeat constructor.
  - vm_compute. discriminate.
Defined.

(** X5.  [packSealIntoIbftExtra] on a header that reads as a record with
    no empty committed seal succeeds, and the header then reads as the new
    seal with the validators and committed seals it had. *)
Theorem X5_packSeal_then_unpack (h : Header) (r : IstanbulExtra)
    (seal : bytes) :
  getIbftExtra h = Ok r ->
  emptySeals (CommittedSeal r) = [] ->
  go_slice (ExtraData (fst (packSealIntoIbftExtra h seal))) ->
  snd (packSealIntoIbftExtra h seal) = None
  /\ unpacked (fst (packSealIntoIbftExtra h seal))
     = (Ok (Validators r), Ok seal, Ok (CommittedSeal r)).
Proof.
  intros Hr He Hs. unfold packSealIntoIbftExtra in *.
  destruct (packFieldIntoIbftExtra_readback h r
              (fun extra =>
                 mkIstanbulExtra (Validators extra) seal (CommittedSeal extra))
              Hr (getIbftExtra_wf h r Hr) He Hs) as [Hp Hg].
  split; [now rewrite Hp|].
  now rewrite (unpacked_ok _ _ Hg).
Qed.

Lemma X5_packSeal_then_unpack_witness :
  snd (packSealIntoIbftExtra headerABC sigP) = None
  /\ unpacked (fst (packSealIntoIbftExtra headerABC sigP))
     = (Ok [addrA; addrB; addrC], Ok sigP, Ok []).
Proof.
  apply (X5_packSeal_then_unpack headerABC
           (mkIstanbulExtra [addrA; addrB; addrC] [] []) sigP).
  - vm_compute. reflexivity.
  - reflexivity.
  - vm_compute. discriminate.
Defined.

(** X6.  [packCommittedSealIntoIbftExtra] with committed seals that are
    all non-empty, on a header that can be read, succeeds, and the header
    then reads as these committed seals, in their order, with the
    validators and the seal it had; the committed seals it held before are
    replaced, not extended. *)
Theorem X6_packCommittedSeal_then_unpack (h : Header) (r : IstanbulExtra)
    (seals : list bytes) :
  getIbftExtra h = Ok r ->
  emptySeals seals = [] ->
  go_slice (ExtraData (fst (packCommittedSealIntoIbftExtra h seals))) ->
  snd (packCommittedSealIntoIbftExtra h seals) = None
  /\ unpacked (fst (packCommittedSealIntoIbftExtra h seals))
     = (Ok (Validators r), Ok (Seal r), Ok seals).
Proof.
  intros Hr He Hs. unfold packCommittedSealIntoIbftExtra in *.
  destruct (packFieldIntoIbftExtra_readback h r
              (fun extra =>
                 mkIstanbulExtra (Validators extra) (Seal extra) seals)
              Hr (getIbftExtra_wf h r Hr) He Hs) as [Hp Hg].
  split; [now rewrite Hp|].
  now rewrite (unpacked_ok _ _ Hg).
Qed.

Lemma X6_packCommittedSeal_then_unpack_witness :
  snd (packCommittedSealIntoIbftExtra headerFull [sig2]) = None
  /\ unpacked (fst (packCommittedSealIntoIbftExtra headerFull [sig2]))
     = (Ok [addrA; addrB; addrC], Ok sigP, Ok [sig2]).
Proof.
  apply (X6_packCommittedSeal_then_unpack headerFull extraFull [sig2]).
  - vm_compute. reflexivity.
  - reflexivity.
  - vm_compute. discriminate.
Defined.

(** X7.  [putIbftExtra] overwrites: writing a record into a header that
    [putIbftExtra] wrote gives the header that writing it in the first
    place gives, so that the vanity, once padded or cut, stays; and the
    field it writes is longer than the vanity. *)
Theorem X7_putIbftExtra_overwrites (h : Header) (r1 r2 : IstanbulExtra) :
  putIbftExtra (fst (putIbftExtra h r1)) r2 = putIbftExtra h r2
  /\ IstanbulExtraVanity < len (ExtraData (fst (putIbftExtra h r1))).
Proof.
  split.
  - rewrite !putIbftExtra_eq. cbn [fst ExtraData].
    now rewrite normalize_prefix_app by apply length_normalize_prefix.
  - rewrite putIbftExtra_eq. cbn [fst ExtraData]. rewrite len_app.
    unfold len at 1. rewrite length_normalize_prefix.
    pose proof (len_MarshalRLPTo_pos r1). unfold IstanbulExtraVanity. lia.
Qed.

(** X8.  The field-level updates compose: of two seals set one after the
    other the second one stays, and setting a seal and setting committed
    seals give the same header in either order; this for a header that
    reads as a record with no empty committed seal, and committed seals
    that are all non-empty. *)
Theorem X8_pack_compose (h : Header) (r : IstanbulExtra)
    (seal1 seal2 : bytes) (seals : list bytes) :
  getIbftExtra h = Ok r ->
  emptySeals (CommittedSeal r) = [] ->
  emptySeals seals = [] ->
  go_slice (ExtraData (fst (packSealIntoIbftExtra h seal1))) ->
  go_slice (ExtraData (fst (packCommittedSealIntoIbftExtra h seals))) ->
  packSealIntoIbftExtra (fst (packSealIntoIbftExtra h seal1)) seal2
  = packSealIntoIbftExtra h seal2
  /\ packCommittedSealIntoIbftExtra (fst (packSealIntoIbftExtra h seal1)) seals
     = packSealIntoIbftExtra (fst (packCommittedSealIntoIbftExtra h seals))
         seal1.
Proof.
  intros Hr He Hes Hs1 Hs2.
  pose proof (getIbftExtra_wf h r Hr) as Hv.
  pose proof (length_vanity _ (getIbftExtra_ok_long h r Hr)) as Hp.
  unfold packSealIntoIbftExtra, packCommittedSealIntoIbftExtra in *.
  destruct (packFieldIntoIbftExtra_readback h r
              (fun extra =>
                 mkIstanbulExtra (Validators extra) seal1 (CommittedSeal extra))
              Hr Hv He Hs1) as [_ Hg1].
  destruct (packFieldIntoIbftExtra_readback h r
              (fun extra =>
                 mkIstanbulExtra (Validators extra) (Seal extra) seals)
              Hr Hv Hes Hs2) as [_ Hg2].
  rewrite !(packFieldIntoIbftExtra_ok _ _ _ Hg1).
  rewrite !(packFieldIntoIbftExtra_ok _ _ _ Hg2).
  rewrite !(packFieldIntoIbftExtra_ok _ _ _ Hr).
  cbn [fst ExtraData Validators Seal CommittedSeal].
  now rewrite !vanity_app by exact Hp.
Qed.

Lemma X8_pack_compose_witness :
  packSealIntoIbftExtra (fst (packSealIntoIbftExtra headerABC sig1)) sigP
  = packSealIntoIbftExtra headerABC sigP
  /\ packCommittedSealIntoIbftExtra
       (fst (packSealIntoIbftExtra headerABC sig1)) [sig1; sig2]
     = packSealIntoIbftExtra
         (fst (packCommittedSealIntoIbftExtra headerABC [sig1; sig2])) sig1.
Proof.
  apply (X8_pack_compose headerABC
           (mkIstanbulExtra [addrA; addrB; addrC] [] []) sig1 sigP
           [sig1; sig2]).
  - vm_compute. reflexivity.
  - reflexivity.
  - reflexivity.
  - vm_compute. discriminate.
  - vm_compute. discriminate.
Defined.

(** X9.  Initializing a header, setting the seal and setting the committed
    seals succeed one after the other and leave the header that writing
    the complete record at once leaves. *)
Theorem X9_sequence_is_put (e : bytes) (validators : list Address)
    (seal : bytes) (seals : list bytes) :
  Forall wf_Address validators ->
  let h1 := fst (initIbftExtra (mkHeader e) validators) in
  let h2 := fst (packSealIntoIbftExtra h1 seal) in
  go_slice (ExtraData h1) -> go_slice (ExtraData h2) ->
  packSealIntoIbftExtra h1 seal
  = putIbftExtra (mkHeader e) (mkIstanbulExtra validators seal [])
  /\ packCommittedSealIntoIbftExtra h2 seals
     = putIbftExtra (mkHeader e) (mkIstanbulExtra validators seal seals).
Proof.
  intros Hv. cbv zeta. intros Hs1 Hs2.
  assert (E : packSealIntoIbftExtra
                (fst (initIbftExtra (mkHeader e) validators)) seal
              = putIbftExtra (mkHeader e)
                  (mkIstanbulExtra validators seal [])).
  { unfold packSealIntoIbftExtra, initIbftExtra in *.
    rewrite pack_after_put by (try assumption; reflexivity).
    now rewrite putIbftExtra_eq. }
  split; [exact E|].
  rewrite E in *. unfold packCommittedSealIntoIbftExtra.
  rewrite pack_after_put by (try assumption; reflexivity).
  now rewrite putIbftExtra_eq.
Qed.

Lemma X9_sequence_is_put_witness :
  packSealIntoIbftExtra headerABC sigP
  = putIbftExtra (mkHeader (repeat x2a 40))
      (mkIstanbulExtra [addrA; addrB; addrC] sigP [])
  /\ packCommittedSealIntoIbftExtra
       (fst (packSealIntoIbftExtra headerABC sigP)) [sig1; sig2]
     = putIbftExtra (mkHeader (repeat x2a 40)) extraFull.
Proof.
  apply (X9_sequence_is_put (repeat x2a 40) [addrA; addrB; addrC] sigP
           [sig1; sig2]).
  - repeat constructor.
  - vm_compute. discriminate.
  - vm_compute. discriminate.
Defined.

(** X10.  [filterIbftExtraForHash] on a header that can be read succeeds
    and leaves a header that reads as the same validators, an empty seal
    and no committed seals; on a header that cannot be read it returns the
    error of the read and leaves the header as it is. *)
Theorem X10_filter_then_unpack (h : Header) :
  (forall r,
     getIbftExtra h = Ok r ->
     go_slice (ExtraData (fst (filterIbftExtraForHash h))) ->
     snd (filterIbftExtraForHash h) = None
     /\ unpacked (fst (filterIbftExtraForHash h))
        = (Ok (Validators r), Ok [], Ok []))
  /\ (forall err,
        getIbftExtra h = Err err ->
        filterIbftExtraForHash h = (h, Some err)).
Proof.
  split.
  - intros r Hr. unfold filterIbftExtraForHash, initIbftExtra. rewrite Hr.
    intros Hs. split; [now rewrite putIbftExtra_eq|].
    rewrite (unpacked_ok _ (mkIstanbulExtra (Validators r) [] []));
      [reflexivity|].
    apply getIbftExtra_put_ok; try assumption; [|reflexivity].
    now apply getIbftExtra_wf in Hr.
  - intros err Hr. unfold filterIbftExtraForHash. now rewrite Hr.
Qed.

Lemma X10_filter_then_unpack_witness :
  snd (filterIbftExtraForHash headerFull) = None
  /\ unpacked (fst (filterIbftExtraForHash headerFull))
     = (Ok [addrA; addrB; addrC], Ok [], Ok []).
Proof.
  apply (proj1 (X10_filter_then_unpack headerFull) extraFull).
  - vm_compute. reflexivity.
  - vm_compute. discriminate.
Defined.

(** X11.  A header that was not initialized cannot be updated: when its
    field is at most 32 bytes long, reading it fails, with the "wrong extra
    size" error below 32 bytes and with the parser's error for an empty
    input at 32 bytes, and setting the seal, setting the committed seals
    and filtering return that error and leave the header as it is. *)
Theorem X11_uninitialized_header (h : Header) :
  len (ExtraData h) <= IstanbulExtraVanity ->
  exists err,
    getIbftExtra h = Err err
    /\ err = (if len (ExtraData h) <? IstanbulExtraVanity
              then ErrWrongExtraSize IstanbulExtraVanity (len (ExtraData h))
              else ErrWire (ErrCannotParse PEmptyString))
    /\ (forall seal, packSealIntoIbftExtra h seal = (h, Some err))
    /\ (forall seals, packCommittedSealIntoIbftExtra h seals = (h, Some err))
    /\ filterIbftExtraForHash h = (h, Some err).
Proof.
  intros Hle.
  assert (Hg : getIbftExtra h
               = Err (if len (ExtraData h) <? IstanbulExtraVanity
                      then ErrWrongExtraSize IstanbulExtraVanity
                             (len (ExtraData h))
                      else ErrWire (ErrCannotParse PEmptyString))).
  { unfold getIbftExtra.
    destruct (N.ltb_spec (len (ExtraData h)) IstanbulExtraVanity) as [H|H];
      [reflexivity|].
    rewrite skipn_all2; [reflexivity|].
    unfold len, IstanbulExtraVanity in *. lia. }
  eexists. split; [exact Hg|]. split; [reflexivity|].
  unfold packSealIntoIbftExtra, packCommittedSealIntoIbftExtra,
    packFieldIntoIbftExtra, filterIbftExtraForHash.
  rewrite Hg. repeat split.
Qed.

Lemma X11_uninitialized_header_witness :
  exists err,
    getIbftExtra header32 = Err err
    /\ err = ErrWire (ErrCannotParse PEmptyString)
    /\ (forall seal, packSealIntoIbftExtra header32 seal = (header32, Some err))
    /\ (forall seals,
          packCommittedSealIntoIbftExtra header32 seals = (header32, Some err))
    /\ filterIbftExtraForHash header32 = (header32, Some err).
Proof.
  apply (X11_uninitialized_header header32).
  vm_compute. discriminate.
Defined.

(** X12.  An empty committed seal makes a header unreadable:
    [packCommittedSealIntoIbftExtra] with committed seals of which some
    are empty, on a header that can be read, returns no error, and the
    header it leaves cannot be read any more: [getIbftExtra] fails on it
    with the "not enough elements" error, which reports three elements and
    one more for every empty committed seal; the same happens to a header
    that holds an empty committed seal and is given a seal. *)
Theorem X12_empty_committed_seal_unreadable (h : Header) (r : IstanbulExtra)
    (updateFn : IstanbulExtra -> IstanbulExtra) :
  getIbftExtra h = Ok r ->
  emptySeals (CommittedSeal (updateFn r)) <> [] ->
  go_slice (ExtraData (fst (packFieldIntoIbftExtra h updateFn))) ->
  snd (packFieldIntoIbftExtra h updateFn) = None
  /\ getIbftExtra (fst (packFieldIntoIbftExtra h updateFn))
     = Err (ErrNotEnoughElements
              (3 + len (emptySeals (CommittedSeal (updateFn r))))).
Proof.
  intros Hr He. rewrite (packFieldIntoIbftExtra_ok h r updateFn Hr).
  cbn [fst snd ExtraData]. intros Hs. split; [reflexivity|].
  apply getIbftExtra_encoded_empty_entry; try assumption.
  now apply length_vanity, (getIbftExtra_ok_long h r).
Qed.

Lemma X12_empty_committed_seal_unreadable_witness :
  (snd (packCommittedSealIntoIbftExtra headerABC [sig1; []]) = None
   /\ getIbftExtra (fst (packCommittedSealIntoIbftExtra headerABC [sig1; []]))
      = Err (ErrNotEnoughElements 4))
  /\ (snd (packSealIntoIbftExtra headerEmptySeal sigP) = None
      /\ getIbftExtra (fst (packSealIntoIbftExtra headerEmptySeal sigP))
         = Err (ErrNotEnoughElements 4)).
Proof.
  split.
  - apply (X12_empty_committed_seal_unreadable headerABC
             (mkIstanbulExtra [addrA; addrB; addrC] [] [])
             (fun extra =>
                mkIstanbulExtra (Validators extra) (Seal extra) [sig1; []])).
    + vm_compute. reflexivity.
    + discriminate.
    + vm_compute. discriminate.
  - apply (X12_empty_committed_seal_unreadable headerEmptySeal
             (mkIstanbulExtra [] [] [[]])
             (fun extra =>
                mkIstanbulExtra (Validators extra) sigP (CommittedSeal extra))).
    + vm_compute. reflexivity.
    + discriminate.
    + vm_compute. discriminate.
Defined.

(** ** The shape and the uniqueness of the encoding *)

(** X13.  The value [MarshalRLPWith] builds has exactly three top-level
    elements if and only if no committed seal is empty; it then is the
    list of the validators, the seal (the null value when it is empty) and
    the list of the committed seals (the null array when there are none),
    in this order. *)
Theorem X13_three_top_level_elements (i : IstanbulExtra) :
  (len (topElems (MarshalRLPWith i)) = 3
   <-> emptySeals (CommittedSeal i) = [])
  /\ (emptySeals (CommittedSeal i) = [] ->
      topElems (MarshalRLPWith i)
      = [bytesArray (Validators i);
         (if len (Seal i) =? 0 then NewNull else NewBytes (Seal i));
         (if len (CommittedSeal i) =? 0 then NewNullArray
          else bytesArray (CommittedSeal i))]).
Proof.
  split.
  - rewrite len_topElems.
    destruct (N.eqb_spec (len (CommittedSeal i)) 0) as [E|E].
    + apply len_0_nil in E. rewrite E. now split.
    + split.
      * intros H. apply len_0_nil. lia.
      * intros ->. reflexivity.
  - intros He. rewrite topElems_MarshalRLPWith. unfold elemsOf, sealValue.
    rewrite He, (nonEmptySeals_all _ He). cbn [length repeat app].
    now destruct (len (CommittedSeal i) =? 0).
Qed.

Lemma X13_three_top_level_elements_witness :
  topElems (MarshalRLPWith extraFull)
  = [bytesArray [addrA; addrB; addrC]; NewBytes sigP;
     bytesArray [sig1; sig2]].
Proof.
  apply (proj2 (X13_three_top_level_elements extraFull)).
  reflexivity.
Defined.

(** X14.  The encoding tells records apart: two records with validators
    of 20 bytes and no empty committed seal that have the same encoding
    are the same record; in particular two headers initialized from the
    same header with different validators differ. *)
Theorem X14_encoding_injective (i1 i2 : IstanbulExtra) :
  Forall wf_Address (Validators i1) -> Forall wf_Address (Validators i2) ->
  emptySeals (CommittedSeal i1) = [] -> emptySeals (CommittedSeal i2) = [] ->
  go_slice (MarshalRLPTo i1 []) ->
  (MarshalRLPTo i1 [] = MarshalRLPTo i2 [] -> i1 = i2)
  /\ (forall h, putIbftExtra h i1 = putIbftExtra h i2 -> i1 = i2).
Proof.
  intros Hv1 Hv2 He1 He2 Hs1.
  assert (Hinj : MarshalRLPTo i1 [] = MarshalRLPTo i2 [] -> i1 = i2).
  { intros E.
    assert (Hs2 : go_slice (MarshalRLPTo i2 [])) by now rewrite <- E.
    pose proof (UnmarshalRLP_MarshalRLPTo_ok i1 [] Hv1 He1 Hs1) as H1.
    pose proof (UnmarshalRLP_MarshalRLPTo_ok i2 [] Hv2 He2 Hs2) as H2.
    rewrite E, H2 in H1. now injection H1. }
  split; [exact Hinj|].
  intros h E. rewrite !putIbftExtra_eq in E. injection E as E.
  apply app_inv_head in E. now apply Hinj.
Qed.

Lemma X14_encoding_injective_witness :
  (MarshalRLPTo extraFull [] = MarshalRLPTo extraFull [] -> extraFull = extraFull)
  /\ (forall h, putIbftExtra h extraFull = putIbftExtra h extraFull ->
                extraFull = extraFull).
Proof.
  apply (X14_encoding_injective extraFull extraFull);
    try (repeat constructor); try reflexivity.
  vm_compute. discriminate.
Defined.

(** ** Canonicalization *)

(** X15.  [filterIbftExtraForHash] is idempotent: on the
    header it leaves behind when it succeeds, it succeeds again and leaves
    the same header.  The header it leaves behind is the one
    [initIbftExtra] writes for the decoded validators over the first 32
    bytes of the field, so two headers with the same validators and the same
    first 32 bytes give the same header, whatever seal and committed seals
    they hold.  And after a header was initialized with [A; B; C], given
    the seal [sP] and then the committed seals [s1; s2], canonicalizing it
    gives the header initialized with [A; B; C] back whenever it succeeds,
    which it does when [s1] and [s2] are not empty (it fails when one of
    them is empty). *)
Theorem X15_filterIbftExtraForHash_canonical :
  (forall h h1,
     filterIbftExtraForHash h = (h1, None) ->
     go_slice (ExtraData h1) ->
     filterIbftExtraForHash h1 = (h1, None))
  /\ (forall h r,
        getIbftExtra h = Ok r ->
        filterIbftExtraForHash h
        = initIbftExtra (mkHeader (vanity (ExtraData h))) (Validators r))
  /\ (forall h h' r r',
        getIbftExtra h = Ok r -> getIbftExtra h' = Ok r' ->
        Validators r = Validators r' ->
        vanity (ExtraData h) = vanity (ExtraData h') ->
        filterIbftExtraForHash h = filterIbftExtraForHash h')
  /\ (forall e A B C sP s1 s2,
        wf_Address A -> wf_Address B -> wf_Address C ->
        let h1 := fst (initIbftExtra (mkHeader e) [A; B; C]) in
        let h2 := fst (packSealIntoIbftExtra h1 sP) in
        let h3 := fst (packCommittedSealIntoIbftExtra h2 [s1; s2]) in
        go_slice (ExtraData h2) -> go_slice (ExtraData h3) ->
        (forall h4, filterIbftExtraForHash h3 = (h4, None) -> h4 = h1)
        /\ (s1 <> [] -> s2 <> [] ->
            filterIbftExtraForHash h3 = (h1, None))).
Proof.
  split; [exact filterIbftExtraForHash_idempotent|].
  split; [|split].
  - intros h r Hr. rewrite (filterIbftExtraForHash_eq h r Hr).
    unfold initIbftExtra. rewrite putIbftExtra_eq. cbn [ExtraData].
    pose proof (length_vanity _ (getIbftExtra_ok_long h r Hr)) as Hp.
    rewrite <- (app_nil_r (vanity (ExtraData h))) at 2.
    now rewrite normalize_prefix_app by exact Hp.
  - intros h h' r r' Hr Hr' Hv Hp.
    rewrite (filterIbftExtraForHash_eq h r Hr).
    rewrite (filterIbftExtraForHash_eq h' r' Hr').
    now rewrite Hv, Hp.
  - intros e A B C sP s1 s2 HA HB HC h1 h2 h3 Hs2 Hs3.
    assert (Hs1 : go_slice (ExtraData h1)).
    { unfold go_slice, h1. rewrite len_init3 by assumption.
      unfold max_int. lia. }
    assert (Hv : Forall wf_Address [A; B; C]) by (repeat constructor; assumption).
    destruct (scenario_canonical e [A; B; C] sP [s1; s2] Hv Hs1 Hs2 Hs3)
      as [H1 H2].
    split; [exact H1|].
    intros E1 E2. apply H2.
    unfold emptySeals. cbn [filter]. unfold isEmpty.
    destruct (N.eqb_spec (len s1) 0) as [E|_];
      [apply len_0_nil in E; now contradiction E1|].
    destruct (N.eqb_spec (len s2) 0) as [E|_];
      [apply len_0_nil in E; now contradiction E2|].
    reflexivity.
Qed.

Lemma X15_filterIbftExtraForHash_canonical_witness :
  filterIbftExtraForHash headerABC = (headerABC, None)
  /\ filterIbftExtraForHash headerSealed = (headerABC, None).
Proof.
  split.
  - apply (proj1 X15_filterIbftExtraForHash_canonical headerSealed headerABC).
    + vm_compute. reflexivity.
    + vm_compute. discriminate.
  - apply (proj2 (proj2 (proj2 X15_filterIbftExtraForHash_canonical))
             (repeat x2a 40) addrA addrB addrC sigP sig1 sig2);
      try (vm_compute; reflexivity); try (vm_compute; discriminate).
Defined.
